(** * Decode Ways: the Fibonacci cache and the cluster counter of main.go

    A shallow embedding of [fib] and [getPossibleCombinations] over an
    explicit store, and the properties of the specification checked on it.

    - A [*big.Int] is a pointer into the store component [ints]; [Add] and
      [Mul] write through their receiver, as math/big does.
    - The package variables [f] and [maxFib] are store components; [maxFib]
      and [clusterSize] are [uint64] and wrap modulo 2^64.
    - The backing array of the argument slice [p] is the store component
      [input].
    - An index out of range or a nil dereference is [Panic]; the loop of
      [fib] runs on fuel and [OutOfFuel] stands for a loop that has not
      finished.
    - Slices are lists. The limit of Go on the length of a slice (an
      [int]) is a hypothesis on the input, and is written out for the
      table [f] in [fib_int], which is [fib] as long as the table has
      room. *)

From Stdlib Require Import ZArith List Lia Bool.

From Stdlib Require Import Strings.Byte.

From Stdlib Require Strings.String.

From Stdlib Require DecimalString.

Import ListNotations.

Import String.StringSyntax.

Local Open Scope Z_scope.

Delimit Scope string_scope with string.

(** * The program *)

(** ** Outcomes of a call *)

Inductive outcome (A : Type) : Type :=
| Ok (a : A)
| Panic
| OutOfFuel.

Arguments Ok {A} a.

Arguments Panic {A}.

Arguments OutOfFuel {A}.

Definition bind {A B : Type} (m : outcome A) (k : A -> outcome B) : outcome B :=
  match m with
  | Ok a => k a
  | Panic => Panic
  | OutOfFuel => OutOfFuel
  end.

Notation "x <- m ;; k" := (bind m (fun x => k))
  (at level 61, m at next level, right associativity).

Notation "' pat <- m ;; k" := (bind m (fun x => match x with pat => k end))
  (at level 61, pat pattern, m at next level, right associativity).

(** ** Machine integers and bytes *)

Definition wrap64 (z : Z) : Z := z mod 2 ^ 64.

(** The largest [int]: the length of a Go slice never exceeds it. *)
Definition maxInt : Z := 2 ^ 63 - 1.

Definition u8 (b : byte) : Z := Z.of_N (Byte.to_N b).

Arguments u8 b%_byte.

(** The bytes of a string literal. *)
Definition B (s : String.string) : list byte := String.list_byte_of_string s.

Arguments B s%_string.

(** ** The store *)

Definition ptr := nat.

Record state : Type := mkState {
  input : list byte;   (* backing array of the slice p *)
  ints : list Z;       (* the big.Int objects, addressed by position *)
  f : list ptr;        (* var f []*big.Int *)
  maxFib : Z           (* var maxFib uint64 *)
}.

Definition set_input (p : list byte) (st : state) : state :=
  mkState p (ints st) (f st) (maxFib st).

Definition set_ints (l : list Z) (st : state) : state :=
  mkState (input st) l (f st) (maxFib st).

Definition set_f (l : list ptr) (st : state) : state :=
  mkState (input st) (ints st) l (maxFib st).

Definition set_maxFib (m : Z) (st : state) : state :=
  mkState (input st) (ints st) (f st) m.

(** [var f = []*big.Int{big.NewInt(0), big.NewInt(1)}] and
    [var maxFib uint64 = 2], with [p] loaded. *)
Definition init (p : list byte) : state :=
  mkState p [0; 1] [0%nat; 1%nat] 2.

(** [s[i]] on a slice. *)
Definition index {A : Type} (s : list A) (i : Z) : outcome A :=
  if (i <? 0) || (Z.of_nat (length s) <=? i) then Panic
  else match nth_error s (Z.to_nat i) with
       | Some a => Ok a
       | None => Panic
       end.

(** [s[1:]] on a slice. *)
Definition slice_from1 {A : Type} (s : list A) : outcome (list A) :=
  match s with
  | [] => Panic
  | _ :: rest => Ok rest
  end.

(** ** math/big *)

Definition NewInt (v : Z) (st : state) : ptr * state :=
  (length (ints st), set_ints (ints st ++ [v]) st).

Definition deref (x : ptr) (st : state) : outcome Z :=
  match nth_error (ints st) x with
  | Some v => Ok v
  | None => Panic
  end.

Fixpoint update (l : list Z) (k : nat) (v : Z) : list Z :=
  match l, k with
  | [], _ => []
  | _ :: l', O => v :: l'
  | w :: l', S k' => w :: update l' k' v
  end.

Definition assign (x : ptr) (v : Z) (st : state) : outcome state :=
  if (x <? length (ints st))%nat then Ok (set_ints (update (ints st) x v) st)
  else Panic.

(** [z.Add(a, b)]: sets z to a+b and returns z. *)
Definition Add (z a b : ptr) (st : state) : outcome (ptr * state) :=
  va <- deref a st ;;
  vb <- deref b st ;;
  st' <- assign z (va + vb) st ;;
  Ok (z, st').

(** [z.Mul(a, b)]: sets z to a*b and returns z. *)
Definition Mul (z a b : ptr) (st : state) : outcome (ptr * state) :=
  va <- deref a st ;;
  vb <- deref b st ;;
  st' <- assign z (va * vb) st ;;
  Ok (z, st').

(** ** fib *)

(** [for ; maxFib <= n; maxFib++ { c := big.Int{}; f = append(f, c.Add(f[maxFib-1], f[maxFib-2])) }] *)
Fixpoint fib_loop (fuel : nat) (n : Z) (st : state) : outcome state :=
  if maxFib st <=? n then
    match fuel with
    | O => OutOfFuel
    | S fuel' =>
        let (c, st1) := NewInt 0 st in
        a <- index (f st1) (wrap64 (maxFib st1 - 1)) ;;
        b <- index (f st1) (wrap64 (maxFib st1 - 2)) ;;
        ' (r, st2) <- Add c a b st1 ;;
        let st3 := set_f (f st2 ++ [r]) st2 in
        fib_loop fuel' n (set_maxFib (wrap64 (maxFib st3 + 1)) st3)
    end
  else Ok st.

Definition fib (fuel : nat) (n : Z) (st : state) : outcome (ptr * state) :=
  st' <- fib_loop fuel n st ;;
  r <- index (f st') n ;;
  Ok (r, st').




(** ** getPossibleCombinations *)

(** The four error returns: [errors.New("string starts with 0")],
    [errors.New("string starts with non-digit character")],
    [fmt.Errorf("encountered non-digit character at pos. %d", i)] and
    [fmt.Errorf("encountered 0 which can not be attached to %c at pos. %d", a, i)]. *)
Inductive error : Type :=
| ErrStartsWithZero
| ErrStartsWithNonDigit
| ErrNonDigitAt (i : Z)
| ErrZeroAfter (a : byte) (i : Z).

(** [b < 0x30 || b > 0x39] *)
Definition not_digit (b : byte) : bool := (u8 b <? 0x30) || (u8 b >? 0x39).

(** [b == 0x30 && a != 0x31 && a != 0x32] *)
Definition bad_zero (a b : byte) : bool :=
  (u8 b =? 0x30) && negb (u8 a =? 0x31) && negb (u8 a =? 0x32).

(** [(a == 0x31 && b > 0x30) || (a == 0x32 && b > 0x30 && b <= 0x36)] *)
Definition in_cluster (a b : byte) : bool :=
  ((u8 a =? 0x31) && (u8 b >? 0x30))
  || ((u8 a =? 0x32) && (u8 b >? 0x30) && (u8 b <=? 0x36)).

(** [x.Mul(x, fib(clusterSize+2))] *)
Definition flush (fuel : nat) (clusterSize : Z) (x : ptr) (st : state)
  : outcome state :=
  ' (y, st1) <- fib fuel (wrap64 (clusterSize + 2)) st ;;
  ' (_, st2) <- Mul x x y st1 ;;
  Ok st2.

(** The loop [for i, b := range p[1:]] and the statements after it; [rest]
    is what remains of [p[1:]], [i] the range index. *)
Fixpoint scan (fuel : nat) (rest : list byte) (i : Z) (a : byte)
  (clusterSize : Z) (x : ptr) (st : state)
  : outcome (ptr * option error * state) :=
  match rest with
  | [] =>
      if clusterSize >? 0 then
        st1 <- flush fuel clusterSize x st ;;
        Ok (x, None, st1)
      else Ok (x, None, st)
  | b :: rest' =>
      if not_digit b then
        let (z, st1) := NewInt 0 st in
        Ok (z, Some (ErrNonDigitAt i), st1)
      else if bad_zero a b then
        let (z, st1) := NewInt 0 st in
        Ok (z, Some (ErrZeroAfter a i), st1)
      else if in_cluster a b then
        scan fuel rest' (i + 1) b (wrap64 (clusterSize + 1)) x st
      else if clusterSize >? 0 then
        st1 <- flush fuel clusterSize x st ;;
        scan fuel rest' (i + 1) b 0 x st1
      else
        scan fuel rest' (i + 1) b clusterSize x st
  end.

Definition getPossibleCombinations (fuel : nat) (st : state)
  : outcome (ptr * option error * state) :=
  let clusterSize := 0 in
  let (x, st1) := NewInt 1 st in
  a <- index (input st1) 0 ;;
  if u8 a =? 0x30 then
    let (z, st2) := NewInt 0 st1 in
    Ok (z, Some ErrStartsWithZero, st2)
  else if (u8 a <? 0x31) || (u8 a >? 0x39) then
    let (z, st2) := NewInt 0 st1 in
    Ok (z, Some ErrStartsWithNonDigit, st2)
  else
    rest <- slice_from1 (input st1) ;;
    scan fuel rest 0 a clusterSize x st1.

(** The number a call returns, read through the returned pointer. *)
Definition run (fuel : nat) (st : state) : outcome (Z * option error * state) :=
  ' (r, e, st') <- getPossibleCombinations fuel st ;;
  v <- deref r st' ;;
  Ok (v, e, st').

(** ** main *)

(** A big.Int or an int under the verbs [%v] and [%d]: its decimal digits,
    with a minus sign when negative. *)
Definition decimal (z : Z) : list byte :=
  String.list_byte_of_string (DecimalString.NilZero.string_of_int (Z.to_int z)).

Definition byte_of (z : Z) : byte :=
  match Byte.of_N (Z.to_N z) with
  | Some b => b
  | None => x00
  end.

(** A byte under the verb [%c]: the UTF-8 encoding of the code point of
    that number, one byte below 0x80 and two bytes from there on. *)
Definition fmt_c (a : byte) : list byte :=
  if u8 a <? 0x80 then [a]
  else [byte_of (0xC0 + u8 a / 64); byte_of (0x80 + u8 a mod 64)].

(** [err.Error()] for the four errors of [getPossibleCombinations]. *)
Definition error_text (e : error) : list byte :=
  match e with
  | ErrStartsWithZero => B "string starts with 0"
  | ErrStartsWithNonDigit => B "string starts with non-digit character"
  | ErrNonDigitAt i => B "encountered non-digit character at pos. " ++ decimal i
  | ErrZeroAfter a i =>
      B "encountered 0 which can not be attached to " ++ fmt_c a
      ++ B " at pos. " ++ decimal i
  end.

(** What [mmap.Open] gives: an error with its message, or a reader with
    its length [r.Len()] and what [r.ReadAt(p, 0)] does to a buffer [p]:
    the buffer afterwards and the message of the error, if any. The
    package golang.org/x/exp/mmap is no part of the repository; the file
    system it reads is the argument [Open] of [main]. *)
Record reader : Type := mkReader {
  Len : nat;
  ReadAt0 : list byte -> list byte * option (list byte)
}.

Inductive opened : Type :=
| OpenError (msg : list byte)
| Opened (r : reader).

(** How the process ends: what it has written and its exit status. *)
Record exit : Type := mkExit {
  stdout : list byte;
  stderr : list byte;
  status : Z
}.

Definition nl : list byte := [x0a].

(** [main], started with [os.Args = Args] and the package variables as
    initialised; [os.Exit(1)] ends the process with status 1, the return
    of [main] with status 0. *)
Definition main (fuel : nat) (Open : list byte -> opened)
  (Args : list (list byte)) : outcome exit :=
  if (length Args <? 2)%nat then
    Ok (mkExit [] (B "Usage: decode-ways <filename>" ++ nl
                   ++ B "Example: decode-ways test2.txt" ++ nl) 1)
  else
    filename <- index Args 1 ;;
    match Open filename with
    | OpenError msg =>
        Ok (mkExit [] (B "Error opening file '" ++ filename ++ B "': "
                       ++ msg ++ nl) 1)
    | Opened r =>
        let p := repeat x00 (Len r) in
        match ReadAt0 r p with
        | (_, Some msg) =>
            Ok (mkExit [] (B "Error reading file '" ++ filename ++ B "': "
                           ++ msg ++ nl) 1)
        | (p', None) =>
            ' (x, err, st') <- getPossibleCombinations fuel (init p') ;;
            match err with
            | Some e =>
                Ok (mkExit [] (B "Error decoding: " ++ error_text e ++ nl) 1)
            | None =>
                v <- deref x st' ;;
                Ok (mkExit (decimal v) [] 0)
            end
        end
    end.

(** * The notions of the specification *)

(** ** The Fibonacci numbers and the cache table *)

(** The Fibonacci numbers, F(0)=0, F(1)=1, F(i)=F(i-1)+F(i-2). *)
Fixpoint Fib (n : nat) : Z :=
  match n with
  | O => 0
  | S m => match m with
           | O => 1
           | S k => Fib m + Fib k
           end
  end.

(** The number stored at index [i] of the cache table. *)
Definition entry (st : state) (i : nat) : option Z :=
  match nth_error (f st) i with
  | Some q => nth_error (ints st) q
  | None => None
  end.

(** The invariant of the cache: [maxFib] is the length of the table, at
    least the two base entries are there, and entry [i] holds F(i). *)
Definition cache_ok (st : state) : Prop :=
  maxFib st = Z.of_nat (length (f st))
  /\ 2 <= maxFib st < 2 ^ 64
  /\ forall i, (i < length (f st))%nat -> entry st i = Some (Fib i).

(** The states a program reaches from the initial one: by calls of [fib],
    by calls of [getPossibleCombinations] (which calls [fib] and writes its
    running product in between), and by loading another input. *)
Inductive reachable : state -> Prop :=
| reach_init : forall p, reachable (init p)
| reach_fib : forall fuel n st r st',
    reachable st -> 0 <= n < 2 ^ 64 ->
    fib fuel n st = Ok (r, st') -> reachable st'
| reach_count : forall fuel st r e st',
    reachable st ->
    getPossibleCombinations fuel st = Ok (r, e, st') -> reachable st'
| reach_load : forall p st,
    reachable st -> reachable (set_input p st).

(** ** Validation rules *)

(** An ASCII digit '0'..'9'. *)
Definition is_digit (b : byte) : bool := (u8 "0" <=? u8 b) && (u8 b <=? u8 "9").

(** Rule 2: the violation at the first byte, if any. *)
Definition start_check (a : byte) : option error :=
  if u8 a =? u8 "0" then Some ErrStartsWithZero
  else if negb (is_digit a) then Some ErrStartsWithNonDigit
  else None.

(** Rule 3: the violation at a later byte [b] with preceding byte [a], at
    position [i] of the remainder, if any. *)
Definition pair_check (a b : byte) (i : Z) : option error :=
  if negb (is_digit b) then Some (ErrNonDigitAt i)
  else if (u8 b =? u8 "0") && negb (u8 a =? u8 "1") && negb (u8 a =? u8 "2")
       then Some (ErrZeroAfter a i)
       else None.

Fixpoint pair_checks (a : byte) (rest : list byte) (i : Z) : list (option error) :=
  match rest with
  | [] => []
  | b :: rest' => pair_check a b i :: pair_checks b rest' (i + 1)
  end.

(** Byte by byte, the violation at that byte, if any. *)
Definition checks (p : list byte) : list (option error) :=
  match p with
  | [] => []
  | a :: rest => start_check a :: pair_checks a rest 0
  end.

(** Every '0' is preceded by '1' or '2'. *)
Fixpoint zeros_ok (a : byte) (rest : list byte) : bool :=
  match rest with
  | [] => true
  | b :: rest' =>
      (negb (u8 b =? u8 "0") || (u8 a =? u8 "1") || (u8 a =? u8 "2"))
      && zeros_ok b rest'
  end.

(** A valid input: the first byte in '1'..'9', every later byte a digit,
    every '0' preceded by '1' or '2'. *)
Definition valid (p : list byte) : bool :=
  match p with
  | [] => false
  | a :: rest =>
      (u8 "1" <=? u8 a) && (u8 a <=? u8 "9")
      && forallb is_digit rest && zeros_ok a rest
  end.

(** ** Ambiguous pairs and clusters *)

(** An ambiguous pair: the two-digit codes 11..19 and 21..26. *)
Definition ambiguous (a b : byte) : bool :=
  ((u8 a =? u8 "1") && (u8 "1" <=? u8 b) && (u8 b <=? u8 "9"))
  || ((u8 a =? u8 "2") && (u8 "1" <=? u8 b) && (u8 b <=? u8 "6")).

(** For each adjacent pair of the input, whether it is ambiguous. *)
Fixpoint pair_flags (a : byte) (rest : list byte) : list bool :=
  match rest with
  | [] => []
  | b :: rest' => ambiguous a b :: pair_flags b rest'
  end.

(** The lengths of the maximal runs of [true], [cur] being the length of
    the run that is open. *)
Fixpoint runs (cur : nat) (l : list bool) : list nat :=
  match l with
  | [] => if (0 <? cur)%nat then [cur] else []
  | true :: l' => runs (S cur) l'
  | false :: l' => (if (0 <? cur)%nat then [cur] else []) ++ runs 0 l'
  end.

(** The lengths of the maximal ambiguous clusters of an input. *)
Definition clusters (p : list byte) : list nat :=
  match p with
  | [] => []
  | a :: rest => runs 0 (pair_flags a rest)
  end.

Definition product (l : list Z) : Z := fold_right Z.mul 1 l.

(** The product, over the clusters, of F(clusterLength + 2). *)
Definition cluster_product (p : list byte) : Z :=
  product (map (fun n => Fib (n + 2)) (clusters p)).

(** ** Decodings *)

(** The byte of a decimal digit. *)
Definition digit (d : nat) : byte :=
  match d with
  | 0 => "0" | 1 => "1" | 2 => "2" | 3 => "3" | 4 => "4"
  | 5 => "5" | 6 => "6" | 7 => "7" | 8 => "8" | _ => "9"
  end%nat%byte.

(** The digits that encode a letter, A=1 .. Z=26. *)
Definition code_digits (n : nat) : list byte :=
  if (n <? 10)%nat then [digit n] else [digit (n / 10); digit (n mod 10)].

Definition encode (l : list nat) : list byte := flat_map code_digits l.

(** [l] is a decoding of [p]: a sequence of letters whose codes, written
    out, are [p]. *)
Definition is_decoding (l : list nat) (p : list byte) : Prop :=
  Forall (fun n => (1 <= n <= 26)%nat) l /\ encode l = p.

Definition digit_val (b : byte) : nat := Z.to_nat (u8 b - u8 "0").

(** [a] alone is the code of a letter, 1..9. *)
Definition one_ok (a : byte) : bool := is_digit a && (1 <=? digit_val a)%nat.

Definition code2 (a b : byte) : nat := (10 * digit_val a + digit_val b)%nat.

(** [a] and [b] together are the code of a letter, 10..26. *)
Definition two_ok (a b : byte) : bool :=
  is_digit a && is_digit b && (10 <=? code2 a b)%nat && (code2 a b <=? 26)%nat.

(** All decodings of [p]: the first letter takes one digit, 1..9, or two,
    10..26. *)
Fixpoint decodings (p : list byte) : list (list nat) :=
  match p with
  | [] => [[]]
  | a :: rest =>
      (if one_ok a then map (cons (digit_val a)) (decodings rest) else [])
      ++ match rest with
         | [] => []
         | b :: rest' =>
             if two_ok a b then map (cons (code2 a b)) (decodings rest') else []
         end
  end.

(** The number of distinct decodings. *)
Definition count_decodings (p : list byte) : Z :=
  Z.of_nat (length (decodings p)).

(** No '0' comes directly after an ambiguous pair. *)
Fixpoint zero_free_clusters (a : byte) (rest : list byte) : bool :=
  match rest with
  | [] => true
  | b :: rest' =>
      match rest' with
      | [] => true
      | c :: _ => negb (ambiguous a b && (u8 c =? u8 "0"))
      end
      && zero_free_clusters b rest'
  end.

Definition no_zero_after_ambiguous (p : list byte) : bool :=
  match p with
  | [] => true
  | a :: rest => zero_free_clusters a rest
  end.

(** * Definitions for the proofs *)

(** ** Growth of the store *)

(** What a call may change: the input stays, the big.Int objects that exist
    stay as they are, the table keeps its entries, and the entries added
    point to objects allocated since. *)
Definition extends (st st' : state) : Prop :=
  input st' = input st
  /\ exists li lf,
       ints st' = ints st ++ li
       /\ f st' = f st ++ lf
       /\ Forall (fun q => (length (ints st) <= q)%nat) lf.

(** The state one iteration of the loop leaves, from a state that satisfies
    the invariant. *)
Definition grow (st : state) : state :=
  let k := length (f st) in
  mkState (input st)
          (ints st ++ [Fib (k - 1) + Fib (k - 2)])
          (f st ++ [length (ints st)])
          (wrap64 (maxFib st + 1)).

(** The running product [x] holds [acc] and is no entry of the table. *)
Definition holds (st : state) (x : ptr) (acc : Z) : Prop :=
  cache_ok st
  /\ nth_error (ints st) x = Some acc
  /\ forall q, In q (f st) -> q <> x.

(** What the scan may change in the store besides [x]. *)
Definition frame (x : ptr) (st st' : state) : Prop :=
  input st' = input st
  /\ (exists lf, f st' = f st ++ lf)
  /\ (length (ints st) <= length (ints st'))%nat
  /\ forall q, (q < length (ints st))%nat -> q <> x ->
               nth_error (ints st') q = nth_error (ints st) q.

(** What a call of [getPossibleCombinations] leaves of the store it was
    called in: the input, the table entries and every big.Int that existed. *)
Definition preserves (st st' : state) : Prop :=
  input st' = input st
  /\ (exists lf, f st' = f st ++ lf)
  /\ forall q, (q < length (ints st))%nat ->
               nth_error (ints st') q = nth_error (ints st) q.

(** ** The scan on numbers *)

(** The running product after [x.Mul(x, fib(clusterSize+2))] under the
    guard [clusterSize > 0]. *)
Definition flushed (cs : nat) (acc : Z) : Z :=
  if (0 <? cs)%nat then acc * Fib (cs + 2) else acc.

(** [scan] on numbers: the tests of the source, F(n) for [fib(n)], and no
    wrap-around of the cluster size. *)
Fixpoint scan_pure (rest : list byte) (i : Z) (a : byte) (cs : nat) (acc : Z)
  : Z * option error :=
  match rest with
  | [] => (flushed cs acc, None)
  | b :: rest' =>
      if not_digit b then (0, Some (ErrNonDigitAt i))
      else if bad_zero a b then (0, Some (ErrZeroAfter a i))
      else if in_cluster a b then scan_pure rest' (i + 1) b (S cs) acc
      else scan_pure rest' (i + 1) b 0 (flushed cs acc)
  end.

Definition count_pure (p : list byte) : option (Z * option error) :=
  match p with
  | [] => None
  | a :: rest =>
      Some (if u8 a =? 0x30 then (0, Some ErrStartsWithZero)
            else if (u8 a <? 0x31) || (u8 a >? 0x39)
                 then (0, Some ErrStartsWithNonDigit)
                 else scan_pure rest 0 a 0 1)
  end.

Definition fibs (l : list nat) : list Z := map (fun n => Fib (n + 2)) l.

(** The first violation of a list of checks. *)
Fixpoint first_error (l : list (option error)) : option error :=
  match l with
  | [] => None
  | Some e :: _ => Some e
  | None :: l' => first_error l'
  end.

(** The product of the Fibonacci factors with a cluster of [cur] pairs
    open. *)
Definition open_product (cur : nat) (l : list bool) : Z :=
  product (fibs (runs cur l)).

(** ** Definitions for the further properties *)

(** For each adjacent pair, whether it is a free choice: ambiguous, and not
    followed by a '0' that takes its second digit. *)
Fixpoint free_flags (a : byte) (rest : list byte) : list bool :=
  match rest with
  | [] => []
  | b :: rest' =>
      (ambiguous a b
       && match rest' with
          | [] => true
          | c :: _ => negb (u8 c =? u8 "0")
          end)
      :: free_flags b rest'
  end.

(** [l1] has [true] only where [l2] has. *)
Fixpoint flags_le (l1 l2 : list bool) : Prop :=
  match l1, l2 with
  | [], [] => True
  | x :: l1', y :: l2' => (x = true -> y = true) /\ flags_le l1' l2'
  | _, _ => False
  end.

(** The length of the table after a flush of a cluster of [cs] pairs, when
    it was [m]: [fib(cs+2)] fills the table up to index cs+2. *)
Definition front_flush (cs : nat) (m : Z) : Z :=
  if (0 <? cs)%nat then Z.max m (Z.of_nat cs + 3) else m.

(** [scan] on the length of the table alone. *)
Fixpoint scan_front (rest : list byte) (a : byte) (cs : nat) (m : Z) : Z :=
  match rest with
  | [] => front_flush cs m
  | b :: rest' =>
      if not_digit b then m
      else if bad_zero a b then m
      else if in_cluster a b then scan_front rest' b (S cs) m
      else scan_front rest' b 0 (front_flush cs m)
  end.

(** * Lemmas and theorems *)

(** ** Store lemmas *)

Lemma Fib_SS (n : nat) : Fib (S (S n)) = Fib (S n) + Fib n.
Proof. reflexivity. Qed.

Lemma Fib_nonneg (n : nat) : 0 <= Fib n /\ 0 <= Fib (S n).
Proof.
  induction n as [|n [IH1 IH2]]; [simpl; lia|].
  split; [exact IH2|]. rewrite Fib_SS. lia.
Qed.

Lemma Fib_pos (n : nat) : 0 < Fib (S n).
Proof.
  induction n as [|n IH]; [reflexivity|].
  rewrite Fib_SS. pose proof (Fib_nonneg n). lia.
Qed.

Lemma length_update (l : list Z) (k : nat) (v : Z) :
  length (update l k v) = length l.
Proof.
  revert k; induction l as [|w l IH]; intros [|k]; simpl; auto.
Qed.

Lemma nth_error_update_eq (l : list Z) (k : nat) (v : Z) :
  (k < length l)%nat -> nth_error (update l k v) k = Some v.
Proof.
  revert k; induction l as [|w l IH]; intros [|k] H; simpl in *; try lia; auto.
  apply IH; lia.
Qed.

Lemma nth_error_update_neq (l : list Z) (k j : nat) (v : Z) :
  k <> j -> nth_error (update l k v) j = nth_error l j.
Proof.
  revert k j; induction l as [|w l IH]; intros [|k] [|j] H; simpl; auto;
    try congruence.
Qed.

Lemma update_app_last (l : list Z) (w v : Z) :
  update (l ++ [w]) (length l) v = l ++ [v].
Proof. induction l as [|u l IH]; simpl; [reflexivity|now rewrite IH]. Qed.

Lemma index_nth {A : Type} (s : list A) (k : nat) (a : A) :
  nth_error s k = Some a -> index s (Z.of_nat k) = Ok a.
Proof.
  intros H. unfold index.
  assert (k < length s)%nat by (apply nth_error_Some; congruence).
  replace (Z.of_nat k <? 0) with false by (symmetry; apply Z.ltb_ge; lia).
  replace (Z.of_nat (length s) <=? Z.of_nat k) with false
    by (symmetry; apply Z.leb_gt; lia).
  simpl. now rewrite Nat2Z.id, H.
Qed.

Lemma index_Ok_inv {A : Type} (s : list A) (i : Z) (a : A) :
  index s i = Ok a ->
  0 <= i < Z.of_nat (length s) /\ nth_error s (Z.to_nat i) = Some a.
Proof.
  unfold index. destruct (i <? 0) eqn:E1; [discriminate|].
  destruct (Z.of_nat (length s) <=? i) eqn:E2; [discriminate|]. simpl.
  apply Z.ltb_ge in E1. apply Z.leb_gt in E2.
  destruct (nth_error s (Z.to_nat i)) eqn:E3; [|discriminate].
  intros [= ->]. split; [lia|reflexivity].
Qed.

Lemma wrap64_small (z : Z) : 0 <= z < 2 ^ 64 -> wrap64 z = z.
Proof. intros H. unfold wrap64. now apply Z.mod_small. Qed.

Lemma entry_Some (st : state) (i : nat) (v : Z) :
  entry st i = Some v ->
  exists q, nth_error (f st) i = Some q /\ nth_error (ints st) q = Some v
            /\ (q < length (ints st))%nat.
Proof.
  unfold entry. destruct (nth_error (f st) i) as [q|] eqn:E; [|discriminate].
  intros H. exists q. repeat split; auto.
  apply nth_error_Some. congruence.
Qed.

Lemma extends_refl (st : state) : extends st st.
Proof.
  split; [reflexivity|]. exists [], []. now rewrite !app_nil_r.
Qed.

Lemma extends_trans (s1 s2 s3 : state) :
  extends s1 s2 -> extends s2 s3 -> extends s1 s3.
Proof.
  intros [Hi (li & lf & Hint & Hf & Hall)] [Hi' (li' & lf' & Hint' & Hf' & Hall')].
  split; [congruence|].
  exists (li ++ li'), (lf ++ lf'). rewrite Hint', Hf', Hint, Hf, <- !app_assoc.
  repeat split; auto.
  apply Forall_app. split; [exact Hall|].
  eapply Forall_impl; [|exact Hall']. intros q Hq. simpl in Hq.
  rewrite Hint, length_app in Hq. lia.
Qed.

Lemma cache_ok_init (p : list byte) : cache_ok (init p).
Proof.
  unfold cache_ok, init, entry; simpl. repeat split; try lia.
  intros [|[|i]] H; simpl in *; try reflexivity; lia.
Qed.

(** ** The loop of fib *)

Lemma fib_loop_below (fuel : nat) (n : Z) (st : state) :
  n < maxFib st -> fib_loop fuel n st = Ok st.
Proof.
  intros H. apply Z.leb_gt in H. destruct fuel; simpl; now rewrite H.
Qed.

Lemma fib_loop_iter (fuel : nat) (n : Z) (st : state) :
  cache_ok st -> maxFib st <= n ->
  fib_loop (S fuel) n st = fib_loop fuel n (grow st).
Proof.
  intros (Hlen & Hrange & Hent) Hle.
  assert (Hk : (2 <= length (f st))%nat) by lia.
  assert (H1 : (length (f st) - 1 < length (f st))%nat) by lia.
  assert (H2 : (length (f st) - 2 < length (f st))%nat) by lia.
  destruct (entry_Some st _ _ (Hent _ H1)) as (q1 & Hq1 & Hv1 & Hb1).
  destruct (entry_Some st _ _ (Hent _ H2)) as (q2 & Hq2 & Hv2 & Hb2).
  apply Z.leb_le in Hle.
  cbn [fib_loop]. rewrite Hle. unfold NewInt.
  cbn [f set_ints maxFib].
  rewrite !wrap64_small by lia.
  replace (maxFib st - 1) with (Z.of_nat (length (f st) - 1)) by lia.
  replace (maxFib st - 2) with (Z.of_nat (length (f st) - 2)) by lia.
  rewrite (index_nth _ _ _ Hq1), (index_nth _ _ _ Hq2). cbn [bind].
  unfold Add, deref, assign. cbn [ints set_ints].
  rewrite !nth_error_app1 by assumption. rewrite Hv1, Hv2. cbn [bind].
  rewrite length_app. cbn [length].
  replace (length (ints st) <? length (ints st) + 1)%nat with true
    by (symmetry; apply Nat.ltb_lt; lia).
  cbn [bind]. rewrite update_app_last.
  unfold grow, set_f, set_maxFib, set_ints. cbn [input ints f maxFib].
  reflexivity.
Qed.

Lemma cache_ok_grow (st : state) :
  cache_ok st -> maxFib st + 1 < 2 ^ 64 ->
  cache_ok (grow st) /\ maxFib (grow st) = maxFib st + 1 /\ extends st (grow st).
Proof.
  intros (Hlen & Hrange & Hent) Hlt.
  assert (Hm : maxFib (grow st) = maxFib st + 1).
  { unfold grow; cbn [maxFib]. apply wrap64_small. lia. }
  split; [|split; [exact Hm|]].
  - unfold cache_ok. rewrite Hm. unfold grow at 1 2. cbn [f].
    rewrite length_app. cbn [length].
    split; [lia|]. split; [lia|].
    intros i Hi. unfold entry, grow. cbn [f ints].
    destruct (Nat.eq_dec i (length (f st))) as [->|Hne].
    + rewrite nth_error_app2 by lia. rewrite Nat.sub_diag. cbn [nth_error].
      rewrite nth_error_app2 by lia. rewrite Nat.sub_diag. cbn [nth_error].
      f_equal.
      destruct (length (f st)) as [|[|k]] eqn:E; [lia|lia|].
      rewrite Fib_SS. f_equal; f_equal; lia.
    + assert (Hi' : (i < length (f st))%nat) by lia.
      destruct (entry_Some st i _ (Hent i Hi')) as (q & Hq & Hv & Hb).
      rewrite nth_error_app1 by lia. rewrite Hq.
      rewrite nth_error_app1 by lia. exact Hv.
  - split; [reflexivity|].
    exists [Fib (length (f st) - 1) + Fib (length (f st) - 2)], [length (ints st)].
    unfold grow; cbn [ints f]. repeat split; auto.
Qed.

(** The loop finishes when it has fuel for the entries that are missing,
    and leaves the table filled up to [n]. *)
Lemma fib_loop_fills (k : nat) :
  forall (st : state) (n : Z) (fuel : nat),
    cache_ok st -> Z.of_nat k = n + 1 - maxFib st -> n + 1 < 2 ^ 64 ->
    (k <= fuel)%nat ->
    exists st', fib_loop fuel n st = Ok st' /\ cache_ok st'
                /\ maxFib st' = n + 1 /\ extends st st'.
Proof.
  induction k as [|k IH]; intros st n fuel Hok Hk Hn Hfuel.
  - exists st. rewrite fib_loop_below by lia.
    repeat split; try apply Hok; try lia. apply extends_refl.
  - destruct fuel as [|fuel]; [lia|].
    rewrite fib_loop_iter by (auto; lia).
    destruct (cache_ok_grow st Hok ltac:(lia)) as (Hok' & Hm & Hext).
    destruct (IH (grow st) n fuel Hok' ltac:(lia) Hn ltac:(lia))
      as (st' & Hrun & Hok'' & Hm' & Hext').
    exists st'. repeat split; try apply Hok''; auto.
    + eapply extends_trans; eauto.
    + eapply extends_trans; eauto.
Qed.

(** With [n] the largest uint64 the loop condition [maxFib <= n] holds
    whatever [maxFib] is, and the loop never finishes. *)
Lemma fib_loop_max_never (fuel : nat) :
  forall (st st' : state),
    maxFib st < 2 ^ 64 -> fib_loop fuel (2 ^ 64 - 1) st <> Ok st'.
Proof.
  induction fuel as [|fuel IH]; intros st st' Hm; cbn [fib_loop];
    (replace (maxFib st <=? 2 ^ 64 - 1) with true
       by (symmetry; apply Z.leb_le; lia)); [discriminate|].
  unfold NewInt.
  destruct (index _ _) as [a| |]; cbn [bind]; try discriminate.
  destruct (index _ _) as [b| |]; cbn [bind]; try discriminate.
  destruct (Add _ _ _ _) as [[r st2]| |]; cbn [bind]; try discriminate.
  apply IH. unfold set_maxFib, wrap64; cbn [maxFib].
  apply Z.mod_pos_bound. lia.
Qed.

(** Whenever the loop finishes it has kept the invariant, only appended to
    the table, and filled it up to [n]. *)
Lemma fib_loop_Ok_inv (fuel : nat) :
  forall (st st' : state) (n : Z),
    cache_ok st -> 0 <= n < 2 ^ 64 -> fib_loop fuel n st = Ok st' ->
    cache_ok st' /\ extends st st' /\ n + 1 < 2 ^ 64
    /\ maxFib st' = Z.max (maxFib st) (n + 1)
    /\ (n < maxFib st -> st' = st).
Proof.
  induction fuel as [|fuel IH]; intros st st' n Hok Hn Hrun.
  - cbn [fib_loop] in Hrun. destruct (maxFib st <=? n) eqn:E; [discriminate|].
    injection Hrun as <-. apply Z.leb_gt in E. destruct Hok as (H1 & H2 & H3).
    repeat split; auto using extends_refl; try apply extends_refl; lia.
  - destruct (Z_lt_le_dec n (maxFib st)) as [Hlt|Hle].
    + rewrite fib_loop_below in Hrun by assumption. injection Hrun as <-.
      destruct Hok as (H1 & H2 & H3).
      repeat split; auto; try apply extends_refl; lia.
    + assert (Hn' : n + 1 < 2 ^ 64).
      { destruct (Z.eq_dec n (2 ^ 64 - 1)) as [->|]; [|lia].
        exfalso. eapply fib_loop_max_never; [|exact Hrun]. apply Hok. }
      rewrite fib_loop_iter in Hrun by assumption.
      assert (Hm : maxFib st + 1 < 2 ^ 64) by lia.
      destruct (cache_ok_grow st Hok Hm) as (Hok' & Hm' & Hext).
      destruct (IH _ _ _ Hok' Hn Hrun) as (Hok'' & Hext' & _ & Hmax & _).
      split; [exact Hok''|]. split; [eapply extends_trans; eauto|].
      split; [exact Hn'|]. split; [lia|]. intros; lia.
Qed.

Lemma extends_entry (st st' : state) (i : nat) (v : Z) :
  extends st st' -> entry st i = Some v -> entry st' i = Some v.
Proof.
  intros [_ (li & lf & Hi & Hf & _)] H.
  destruct (entry_Some _ _ _ H) as (q & Hq & Hv & Hb).
  unfold entry. rewrite Hf, Hi.
  rewrite nth_error_app1 by (apply nth_error_Some; congruence).
  rewrite Hq. now rewrite nth_error_app1 by assumption.
Qed.

Lemma cache_ok_entry (st : state) (i : nat) :
  cache_ok st -> (Z.of_nat i < maxFib st) -> entry st i = Some (Fib i).
Proof. intros (H1 & H2 & H3) Hi. apply H3. lia. Qed.

(** What a call of [fib] that returns has done. *)
Lemma fib_Ok_inv (fuel : nat) (n : Z) (st st' : state) (r : ptr) :
  cache_ok st -> 0 <= n < 2 ^ 64 -> fib fuel n st = Ok (r, st') ->
  cache_ok st' /\ extends st st' /\ n + 1 < 2 ^ 64
  /\ maxFib st' = Z.max (maxFib st) (n + 1)
  /\ (n < maxFib st -> st' = st)
  /\ nth_error (f st') (Z.to_nat n) = Some r
  /\ deref r st' = Ok (Fib (Z.to_nat n)).
Proof.
  intros Hok Hn Hrun. unfold fib in Hrun.
  destruct (fib_loop fuel n st) as [st1| |] eqn:E; cbn [bind] in Hrun;
    try discriminate.
  destruct (index (f st1) n) as [r1| |] eqn:E2; cbn [bind] in Hrun;
    try discriminate.
  injection Hrun as -> ->.
  destruct (fib_loop_Ok_inv _ _ _ _ Hok Hn E) as (Hok' & Hext & Hn' & Hmax & Hsame).
  destruct (index_Ok_inv _ _ _ E2) as [Hb Hnth].
  repeat split; try apply Hok'; try apply Hext; auto.
  assert (He : entry st' (Z.to_nat n) = Some (Fib (Z.to_nat n))).
  { apply cache_ok_entry; [exact Hok'|]. lia. }
  unfold entry in He. rewrite Hnth in He. unfold deref. now rewrite He.
Qed.

(** A call of [fib] returns when it has fuel for the missing entries. *)
Lemma fib_returns (fuel : nat) (n : Z) (st : state) :
  cache_ok st -> 0 <= n -> n + 1 < 2 ^ 64 ->
  (Z.to_nat (n + 1 - maxFib st) <= fuel)%nat ->
  exists r st', fib fuel n st = Ok (r, st').
Proof.
  intros Hok Hn Hn' Hfuel.
  assert (Hloop : exists st', fib_loop fuel n st = Ok st' /\ cache_ok st'
                              /\ n < maxFib st').
  { destruct (Z_lt_le_dec n (maxFib st)) as [Hlt|Hle].
    - exists st. now rewrite fib_loop_below by assumption.
    - destruct (fib_loop_fills (Z.to_nat (n + 1 - maxFib st)) st n fuel Hok
                  ltac:(lia) Hn' Hfuel) as (st' & Hrun & Hok' & Hm & _).
      exists st'. repeat split; try apply Hok'; auto. lia. }
  destruct Hloop as (st' & Hrun & Hok' & Hlt).
  assert (Hlen : (Z.to_nat n < length (f st'))%nat).
  { destruct Hok' as (H1 & _). lia. }
  apply nth_error_Some in Hlen.
  destruct (nth_error (f st') (Z.to_nat n)) as [r|] eqn:E; [|congruence].
  exists r, st'. unfold fib. rewrite Hrun. cbn [bind].
  replace n with (Z.of_nat (Z.to_nat n)) at 1 by lia.
  now rewrite (index_nth _ _ _ E).
Qed.



(** ** The scan over the store against the scan on numbers *)

Lemma frame_refl (x : ptr) (st : state) : frame x st st.
Proof.
  repeat split; auto. exists []. now rewrite app_nil_r.
Qed.

Lemma frame_trans (x : ptr) (s1 s2 s3 : state) :
  frame x s1 s2 -> frame x s2 s3 -> frame x s1 s3.
Proof.
  intros (Hi & (lf & Hf) & Hl & Hq) (Hi' & (lf' & Hf') & Hl' & Hq').
  repeat split.
  - congruence.
  - exists (lf ++ lf'). now rewrite Hf', Hf, app_assoc.
  - lia.
  - intros q Hlt Hne. rewrite Hq' by (auto; lia). now apply Hq.
Qed.

Lemma extends_frame (x : ptr) (st st' : state) :
  extends st st' -> frame x st st'.
Proof.
  intros [Hi (li & lf & Hint & Hf & Hall)]. repeat split.
  - exact Hi.
  - now exists lf.
  - rewrite Hint, length_app. lia.
  - intros q Hlt _. rewrite Hint. now apply nth_error_app1.
Qed.

Lemma holds_extends (st st' : state) (x : ptr) (acc : Z) :
  holds st x acc -> extends st st' -> cache_ok st' -> holds st' x acc.
Proof.
  intros (Hok & Hx & Hfresh) [Hi (li & lf & Hint & Hf & Hall)] Hok'.
  assert (Hlt : (x < length (ints st))%nat) by (apply nth_error_Some; congruence).
  repeat split; try apply Hok'.
  - rewrite Hint. now rewrite nth_error_app1.
  - intros q Hin. rewrite Hf in Hin. apply in_app_or in Hin.
    destruct Hin as [Hin|Hin]; [now apply Hfresh|].
    rewrite Forall_forall in Hall. specialize (Hall _ Hin). simpl in Hall. lia.
Qed.

(** Writing the running product keeps the cache. *)
Lemma holds_assign (st : state) (x : ptr) (acc v : Z) :
  holds st x acc ->
  exists st', assign x v st = Ok st' /\ holds st' x v /\ frame x st st'.
Proof.
  intros (Hok & Hx & Hfresh).
  assert (Hlt : (x < length (ints st))%nat) by (apply nth_error_Some; congruence).
  exists (set_ints (update (ints st) x v) st). unfold assign.
  apply Nat.ltb_lt in Hlt as Hltb. rewrite Hltb. split; [reflexivity|].
  split.
  - destruct Hok as (H1 & H2 & H3).
    repeat split; cbn [set_ints f ints maxFib]; auto; try lia.
    + intros i Hi. specialize (H3 i Hi).
      destruct (entry_Some _ _ _ H3) as (q & Hq & Hv & Hb).
      unfold entry; cbn [set_ints f ints]. rewrite Hq.
      rewrite nth_error_update_neq; [exact Hv|].
      intros <-. apply (Hfresh x); [|reflexivity].
      eapply nth_error_In; eauto.
    + now apply nth_error_update_eq.
  - repeat split; cbn [set_ints f ints input].
    + exists []. now rewrite app_nil_r.
    + now rewrite length_update.
    + intros q _ Hne. apply nth_error_update_neq. congruence.
Qed.

(** The flush multiplies the running product by F(cs+2). *)
Lemma flush_spec (fuel cs : nat) (x : ptr) (acc : Z) (st : state) :
  holds st x acc -> Z.of_nat cs + 3 < 2 ^ 64 -> (cs + 1 <= fuel)%nat ->
  exists st', flush fuel (Z.of_nat cs) x st = Ok st'
              /\ holds st' x (acc * Fib (cs + 2)) /\ frame x st st'.
Proof.
  intros Hh Hcs Hfuel. pose proof Hh as (Hok & Hx & Hfresh).
  unfold flush. rewrite wrap64_small by lia.
  assert (Hm : 2 <= maxFib st) by apply Hok.
  destruct (fib_returns fuel (Z.of_nat cs + 2) st Hok ltac:(lia) ltac:(lia)
              ltac:(lia)) as (y & st1 & Hrun).
  rewrite Hrun. cbn [bind].
  destruct (fib_Ok_inv fuel (Z.of_nat cs + 2) st st1 y Hok ltac:(lia) Hrun)
    as (Hok1 & Hext & _ & _ & _ & Hy & Hdy).
  pose proof (holds_extends _ _ _ _ Hh Hext Hok1) as Hh1.
  destruct (holds_assign st1 x acc (acc * Fib (cs + 2)) Hh1)
    as (st2 & Hasg & Hh2 & Hfr).
  unfold Mul. unfold deref in *. destruct Hh1 as (_ & Hx1 & _). rewrite Hx1.
  cbn [bind].
  replace (Z.to_nat (Z.of_nat cs + 2)) with (cs + 2)%nat in Hdy by lia.
  destruct (nth_error (ints st1) y) as [vy|]; [|discriminate].
  injection Hdy as ->. cbn [bind]. rewrite Hasg. cbn [bind].
  exists st2. split; [reflexivity|]. split; [exact Hh2|].
  eapply frame_trans; [apply extends_frame; exact Hext|exact Hfr].
Qed.

Lemma NewInt_extends (v : Z) (st : state) :
  cache_ok st ->
  cache_ok (snd (NewInt v st)) /\ extends st (snd (NewInt v st))
  /\ deref (fst (NewInt v st)) (snd (NewInt v st)) = Ok v.
Proof.
  intros Hok.
  assert (Hext : extends st (snd (NewInt v st))).
  { split; [reflexivity|]. exists [v], []. cbn. now rewrite app_nil_r. }
  repeat split; try apply Hok; try apply Hext.
  - intros i Hi. eapply extends_entry; [exact Hext|]. now apply Hok.
  - unfold deref, NewInt; cbn [fst snd ints set_ints].
    rewrite nth_error_app2 by lia. now rewrite Nat.sub_diag.
Qed.

Lemma gtb_of_nat (cs : nat) : (Z.of_nat cs >? 0) = (0 <? cs)%nat.
Proof.
  destruct cs as [|cs]; [reflexivity|].
  rewrite Z.gtb_ltb. symmetry.
  transitivity true; [reflexivity|]. symmetry. apply Z.ltb_lt. lia.
Qed.

(** The scan over the store computes what the scan on numbers computes. *)
Lemma scan_refines (fuel : nat) (rest : list byte) :
  forall (i : Z) (a : byte) (cs : nat) (acc : Z) (x : ptr) (st : state),
    holds st x acc ->
    Z.of_nat (cs + length rest) + 3 < 2 ^ 64 ->
    (cs + length rest + 1 <= fuel)%nat ->
    exists r st',
      scan fuel rest i a (Z.of_nat cs) x st
      = Ok (r, snd (scan_pure rest i a cs acc), st')
      /\ deref r st' = Ok (fst (scan_pure rest i a cs acc))
      /\ cache_ok st' /\ frame x st st'.
Proof.
  induction rest as [|b rest IH]; intros i a cs acc x st Hh Hcs Hfuel;
    cbn [scan scan_pure length] in *.
  - rewrite gtb_of_nat. unfold flushed.
    destruct (0 <? cs)%nat eqn:E.
    + destruct (flush_spec fuel cs x acc st Hh ltac:(lia) ltac:(lia))
        as (st1 & Hrun & Hh1 & Hfr).
      rewrite Hrun. cbn [bind fst snd]. exists x, st1.
      destruct Hh1 as (Hok1 & Hx1 & _). unfold deref. rewrite Hx1. auto.
    + exists x, st. cbn [fst snd]. destruct Hh as (Hok & Hx & _).
      unfold deref. rewrite Hx. auto using frame_refl.
  - destruct (not_digit b); [|destruct (bad_zero a b)].
    + destruct (NewInt_extends 0 st (proj1 Hh)) as (Hok1 & Hext & Hd).
      destruct (NewInt 0 st) as [z st1]. cbn [fst snd] in *.
      exists z, st1. auto using extends_frame.
    + destruct (NewInt_extends 0 st (proj1 Hh)) as (Hok1 & Hext & Hd).
      destruct (NewInt 0 st) as [z st1]. cbn [fst snd] in *.
      exists z, st1. auto using extends_frame.
    + destruct (in_cluster a b).
      * rewrite wrap64_small by lia.
        replace (Z.of_nat cs + 1) with (Z.of_nat (S cs)) by lia.
        apply IH; auto; lia.
      * rewrite gtb_of_nat. unfold flushed.
        destruct (0 <? cs)%nat eqn:E.
        -- destruct (flush_spec fuel cs x acc st Hh ltac:(lia) ltac:(lia))
             as (st1 & Hrun & Hh1 & Hfr).
           rewrite Hrun. cbn [bind].
           destruct (IH (i + 1) b 0%nat (acc * Fib (cs + 2)) x st1 Hh1
                       ltac:(lia) ltac:(lia)) as (r & st' & Hs & Hd & Hok' & Hfr').
           exists r, st'. change (Z.of_nat 0) with 0 in Hs.
           repeat split; try apply Hok'; auto.
           all: try (eapply frame_trans; eassumption).
           all: eapply frame_trans; [exact Hfr|exact Hfr'].
        -- apply Nat.ltb_ge in E. assert (cs = 0%nat) by lia. subst cs.
           apply IH; auto; lia.
Qed.

Lemma cache_ok_ptr_bound (st : state) (q : ptr) :
  cache_ok st -> In q (f st) -> (q < length (ints st))%nat.
Proof.
  intros (_ & _ & Hent) Hin. apply In_nth_error in Hin as [i Hi].
  assert (Hlt : (i < length (f st))%nat) by (apply nth_error_Some; congruence).
  destruct (entry_Some _ _ _ (Hent i Hlt)) as (q' & Hq' & _ & Hb). congruence.
Qed.

Lemma frame_preserves (st st1 st' : state) :
  extends st st1 -> frame (length (ints st)) st1 st' -> preserves st st'.
Proof.
  intros [Hi (li & lf & Hint & Hf & _)] (Hi' & (lf' & Hf') & Hl & Hq).
  repeat split.
  - congruence.
  - exists (lf ++ lf'). now rewrite Hf', Hf, app_assoc.
  - intros q Hlt. rewrite Hq; [|rewrite Hint, length_app; lia|lia].
    rewrite Hint. now apply nth_error_app1.
Qed.

(** A call on a non-empty input returns, with fuel for the longest cluster,
    what [count_pure] computes, and keeps the cache invariant. *)
Lemma run_refines (fuel : nat) (st : state) :
  cache_ok st -> input st <> [] ->
  Z.of_nat (length (input st)) <= maxInt ->
  (length (input st) <= fuel)%nat ->
  exists v e st',
    run fuel st = Ok (v, e, st')
    /\ count_pure (input st) = Some (v, e)
    /\ cache_ok st' /\ preserves st st'.
Proof.
  intros Hok Hne Hlen Hfuel. unfold maxInt in Hlen.
  destruct (input st) as [|a rest] eqn:Ein; [congruence|]. clear Hne.
  cbn [length] in *.
  destruct (NewInt_extends 1 st Hok) as (Hok1 & Hext1 & Hd1).
  unfold run, getPossibleCombinations.
  destruct (NewInt 1 st) as [x st1] eqn:EN. cbn [fst snd] in *.
  assert (Hx : x = length (ints st)) by (unfold NewInt in EN; congruence).
  assert (Hin1 : input st1 = a :: rest) by (destruct Hext1; congruence).
  assert (Hidx : index (a :: rest) 0 = Ok a)
    by (apply (index_nth (a :: rest) 0 a); reflexivity).
  rewrite Hin1, Hidx. cbn [bind slice_from1 count_pure].
  destruct (u8 a =? 48); [|destruct ((u8 a <? 49) || (u8 a >? 57))].
  - destruct (NewInt_extends 0 st1 Hok1) as (Hok2 & Hext2 & Hd2).
    destruct (NewInt 0 st1) as [z st2]. cbn [fst snd bind] in *.
    rewrite Hd2. cbn [bind]. exists 0, (Some ErrStartsWithZero), st2.
    repeat split; try apply Hok2; auto.
    all: eapply frame_preserves; [exact Hext1|apply extends_frame; exact Hext2].
  - destruct (NewInt_extends 0 st1 Hok1) as (Hok2 & Hext2 & Hd2).
    destruct (NewInt 0 st1) as [z st2]. cbn [fst snd bind] in *.
    rewrite Hd2. cbn [bind]. exists 0, (Some ErrStartsWithNonDigit), st2.
    repeat split; try apply Hok2; auto.
    all: eapply frame_preserves; [exact Hext1|apply extends_frame; exact Hext2].
  - assert (Hh : holds st1 x 1).
    { repeat split; try apply Hok1.
      - unfold deref in Hd1. destruct (nth_error (ints st1) x); congruence.
      - intros q Hq. destruct Hext1 as [_ (li & lf & Hint & Hf & Hall)].
        rewrite Hf in Hq. apply in_app_or in Hq. destruct Hq as [Hq|Hq].
        + apply (cache_ok_ptr_bound _ _ Hok) in Hq. lia.
        + unfold NewInt in EN. injection EN as <- <-.
          cbn [f set_ints] in Hf.
          assert (lf = []) as ->.
          { apply (f_equal (@length ptr)) in Hf. rewrite length_app in Hf.
            destruct lf; [reflexivity|cbn in Hf; lia]. }
          destruct Hq. }
    destruct (scan_refines fuel rest 0 a 0%nat 1 x st1 Hh ltac:(cbn; lia)
                ltac:(cbn; lia)) as (r & st' & Hs & Hd & Hok' & Hfr).
    change (Z.of_nat 0) with 0 in Hs. rewrite Hs. cbn [bind]. rewrite Hd.
    cbn [bind].
    destruct (scan_pure rest 0 a 0 1) as [v e]. cbn [fst snd].
    exists v, e, st'. repeat split; try apply Hok'; auto.
    all: subst x; eapply frame_preserves; eauto.
Qed.

(** ** Every call keeps the cache *)

Lemma wrap64_range (z : Z) : 0 <= wrap64 z < 2 ^ 64.
Proof. unfold wrap64. apply Z.mod_pos_bound. lia. Qed.

Lemma flush_keeps (fuel : nat) (cs : Z) (x : ptr) (acc : Z) (st st' : state) :
  holds st x acc -> flush fuel cs x st = Ok st' ->
  exists acc', holds st' x acc'.
Proof.
  intros Hh Hrun. unfold flush in Hrun.
  destruct (fib fuel (wrap64 (cs + 2)) st) as [[y st1]| |] eqn:E;
    cbn [bind] in Hrun; try discriminate.
  destruct (fib_Ok_inv _ _ _ _ _ (proj1 Hh) (wrap64_range _) E)
    as (Hok1 & Hext & _).
  pose proof (holds_extends _ _ _ _ Hh Hext Hok1) as Hh1.
  unfold Mul, deref in Hrun. pose proof Hh1 as (_ & Hx1 & _).
  rewrite Hx1 in Hrun. cbn [bind] in Hrun.
  destruct (nth_error (ints st1) y) as [vy|]; cbn [bind] in Hrun;
    try discriminate.
  destruct (holds_assign st1 x acc (acc * vy) Hh1) as (st2 & Hasg & Hh2 & _).
  rewrite Hasg in Hrun. cbn [bind] in Hrun. injection Hrun as <-.
  now exists (acc * vy).
Qed.

Lemma scan_keeps (fuel : nat) (rest : list byte) :
  forall (i : Z) (a : byte) (cs : Z) (x : ptr) (acc : Z) (st st' : state)
         (r : ptr) (e : option error),
    holds st x acc -> scan fuel rest i a cs x st = Ok (r, e, st') ->
    cache_ok st'.
Proof.
  induction rest as [|b rest IH]; intros i a cs x acc st st' r e Hh Hrun;
    cbn [scan] in Hrun.
  - destruct (cs >? 0).
    + destruct (flush fuel cs x st) as [st1| |] eqn:E; cbn [bind] in Hrun;
        try discriminate.
      injection Hrun as _ _ <-.
      destruct (flush_keeps _ _ _ _ _ _ Hh E) as [acc' Hh']. apply Hh'.
    + injection Hrun as _ _ <-. apply Hh.
  - destruct (not_digit b); [|destruct (bad_zero a b)].
    + injection Hrun as _ _ <-. apply (NewInt_extends 0 st (proj1 Hh)).
    + injection Hrun as _ _ <-. apply (NewInt_extends 0 st (proj1 Hh)).
    + destruct (in_cluster a b); [eapply IH; eauto|].
      destruct (cs >? 0); [|eapply IH; eauto].
      destruct (flush fuel cs x st) as [st1| |] eqn:E; cbn [bind] in Hrun;
        try discriminate.
      destruct (flush_keeps _ _ _ _ _ _ Hh E) as [acc' Hh'].
      eapply IH; eauto.
Qed.

Lemma holds_NewInt (v : Z) (st : state) :
  cache_ok st -> holds (snd (NewInt v st)) (fst (NewInt v st)) v.
Proof.
  intros Hok. destruct (NewInt_extends v st Hok) as (Hok1 & Hext & Hd).
  split; [exact Hok1|]. split.
  - unfold deref in Hd.
    destruct (nth_error (ints (snd (NewInt v st))) (fst (NewInt v st)));
      congruence.
  - cbn [NewInt fst snd set_ints f]. intros q Hq.
    apply (cache_ok_ptr_bound _ _ Hok) in Hq. lia.
Qed.

(** Whenever a call of [getPossibleCombinations] returns, on any input and
    with any fuel, it has kept the invariant of the cache. *)
Lemma getPossibleCombinations_keeps (fuel : nat) (st st' : state) (r : ptr)
  (e : option error) :
  cache_ok st -> getPossibleCombinations fuel st = Ok (r, e, st') ->
  cache_ok st'.
Proof.
  intros Hok Hrun. unfold getPossibleCombinations in Hrun.
  pose proof (holds_NewInt 1 st Hok) as Hh.
  destruct (NewInt 1 st) as [x st1]. cbn [fst snd] in Hh.
  destruct (index (input st1) 0) as [a| |]; cbn [bind] in Hrun;
    try discriminate.
  destruct (u8 a =? 48); [|destruct ((u8 a <? 49) || (u8 a >? 57))].
  - injection Hrun as _ _ <-. apply (NewInt_extends 0 st1 (proj1 Hh)).
  - injection Hrun as _ _ <-. apply (NewInt_extends 0 st1 (proj1 Hh)).
  - destruct (slice_from1 (input st1)) as [rest| |]; cbn [bind] in Hrun;
      try discriminate.
    eapply scan_keeps; eauto.
Qed.

Lemma reachable_cache_ok (st : state) : reachable st -> cache_ok st.
Proof.
  induction 1 as [p|fuel n st r st' _ IH Hn Hrun|fuel st r e st' _ IH Hrun
                 |p st _ IH].
  - apply cache_ok_init.
  - now destruct (fib_Ok_inv _ _ _ _ _ IH Hn Hrun).
  - eapply getPossibleCombinations_keeps; eauto.
  - exact IH.
Qed.

(** ** The tests of the source and the rules *)

Ltac cmp_cases :=
  repeat match goal with
         | |- context [?a <=? ?b] => destruct (Z.leb_spec a b)
         | |- context [?a <? ?b] => destruct (Z.ltb_spec a b)
         | |- context [?a >? ?b] => rewrite (Z.gtb_ltb a b)
         | |- context [?a =? ?b] => destruct (Z.eqb_spec a b)
         end;
  cbn [negb andb orb]; try reflexivity; try lia.

Lemma u8_0 : u8 "0" = 48. Proof. reflexivity. Qed.

Lemma u8_1 : u8 "1" = 49. Proof. reflexivity. Qed.

Lemma u8_2 : u8 "2" = 50. Proof. reflexivity. Qed.

Lemma u8_6 : u8 "6" = 54. Proof. reflexivity. Qed.

Lemma u8_9 : u8 "9" = 57. Proof. reflexivity. Qed.

Ltac u8_consts := rewrite ?u8_0, ?u8_1, ?u8_2, ?u8_6, ?u8_9 in *.

Lemma not_digit_spec (b : byte) : not_digit b = negb (is_digit b).
Proof. unfold not_digit, is_digit. u8_consts. cmp_cases. Qed.

Lemma bad_zero_spec (a b : byte) :
  bad_zero a b
  = (u8 b =? u8 "0") && negb (u8 a =? u8 "1") && negb (u8 a =? u8 "2").
Proof. unfold bad_zero. now u8_consts. Qed.

Lemma in_cluster_spec (a b : byte) :
  is_digit b = true -> in_cluster a b = ambiguous a b.
Proof.
  unfold is_digit, in_cluster, ambiguous. u8_consts.
  cmp_cases; discriminate.
Qed.

Lemma start_check_spec (a : byte) :
  start_check a
  = if u8 a =? 0x30 then Some ErrStartsWithZero
    else if (u8 a <? 0x31) || (u8 a >? 0x39) then Some ErrStartsWithNonDigit
         else None.
Proof. unfold start_check, is_digit. u8_consts. cmp_cases. Qed.

(** ** The count of a valid input *)

Lemma product_app (l1 l2 : list Z) : product (l1 ++ l2) = product l1 * product l2.
Proof.
  induction l1 as [|z l1 IH]; cbn [app].
  - change (product []) with 1. lia.
  - change (z * product (l1 ++ l2) = z * product l1 * product l2).
    rewrite IH. ring.
Qed.

Lemma flushed_runs (cs : nat) (acc : Z) :
  flushed cs acc = acc * product (fibs (if (0 <? cs)%nat then [cs] else [])).
Proof.
  unfold flushed, fibs. destruct (0 <? cs)%nat; cbn [map product fold_right]; ring.
Qed.

Lemma scan_pure_valid (rest : list byte) :
  forall (i : Z) (a : byte) (cs : nat) (acc : Z),
    forallb is_digit rest = true -> zeros_ok a rest = true ->
    scan_pure rest i a cs acc
    = (acc * product (fibs (runs cs (pair_flags a rest))), None).
Proof.
  induction rest as [|b rest IH]; intros i a cs acc Hd Hz;
    cbn [scan_pure pair_flags runs forallb zeros_ok] in *.
  - now rewrite flushed_runs.
  - apply andb_prop in Hd as [Hb Hd]. apply andb_prop in Hz as [Hz0 Hz].
    rewrite not_digit_spec, Hb. cbn [negb].
    rewrite bad_zero_spec.
    replace ((u8 b =? u8 "0") && negb (u8 a =? u8 "1") && negb (u8 a =? u8 "2"))
      with false
      by (revert Hz0; destruct (u8 b =? u8 "0"), (u8 a =? u8 "1"),
            (u8 a =? u8 "2"); cbn; congruence).
    rewrite (in_cluster_spec a b Hb).
    destruct (ambiguous a b).
    + now apply IH.
    + rewrite IH by assumption. rewrite flushed_runs.
      unfold fibs. rewrite map_app, product_app. f_equal. ring.
Qed.

Lemma count_pure_valid (p : list byte) :
  valid p = true -> count_pure p = Some (cluster_product p, None).
Proof.
  destruct p as [|a rest]; [discriminate|]. cbn [valid count_pure].
  intros H. apply andb_prop in H as [H Hz]. apply andb_prop in H as [H Hd].
  apply andb_prop in H as [H1 H9].
  rewrite u8_1 in H1. rewrite u8_9 in H9.
  apply Z.leb_le in H1. apply Z.leb_le in H9.
  replace (u8 a =? 48) with false by (symmetry; apply Z.eqb_neq; lia).
  replace ((u8 a <? 49) || (u8 a >? 57)) with false.
  2:{ symmetry. apply orb_false_intro; [apply Z.ltb_ge; lia|].
      rewrite Z.gtb_ltb. apply Z.ltb_ge; lia. }
  rewrite scan_pure_valid by assumption.
  unfold cluster_product, clusters, fibs. do 2 f_equal. lia.
Qed.

(** ** The error of an invalid input *)

Lemma pair_check_spec (a b : byte) (i : Z) :
  pair_check a b i
  = if not_digit b then Some (ErrNonDigitAt i)
    else if bad_zero a b then Some (ErrZeroAfter a i) else None.
Proof. unfold pair_check. now rewrite not_digit_spec, bad_zero_spec. Qed.

Lemma scan_pure_error (rest : list byte) :
  forall (i : Z) (a : byte) (cs : nat) (acc : Z),
    snd (scan_pure rest i a cs acc) = first_error (pair_checks a rest i)
    /\ (snd (scan_pure rest i a cs acc) <> None ->
        fst (scan_pure rest i a cs acc) = 0).
Proof.
  induction rest as [|b rest IH]; intros i a cs acc;
    cbn [scan_pure pair_checks first_error fst snd].
  - split; [reflexivity|congruence].
  - rewrite pair_check_spec.
    destruct (not_digit b); [now split|].
    destruct (bad_zero a b); [now split|].
    destruct (in_cluster a b); apply IH.
Qed.

Lemma count_pure_error (p : list byte) (v : Z) (e : option error) :
  count_pure p = Some (v, e) ->
  e = first_error (checks p) /\ (e <> None -> v = 0).
Proof.
  destruct p as [|a rest]; [discriminate|]. cbn [count_pure checks first_error].
  rewrite start_check_spec.
  destruct (u8 a =? 48); [intros [= <- <-]; now split|].
  destruct ((u8 a <? 49) || (u8 a >? 57)); [intros [= <- <-]; now split|].
  intros [= H]. destruct (scan_pure_error rest 0 a 0 1) as [H1 H2].
  rewrite H in H1, H2. cbn [fst snd] in *. now split.
Qed.

Lemma first_error_Some (l : list (option error)) (e : error) :
  first_error l = Some e <->
  exists k, nth_error l k = Some (Some e)
            /\ forall j, (j < k)%nat -> nth_error l j = Some None.
Proof.
  induction l as [|[e'|] l IH]; cbn [first_error].
  - split; [discriminate|]. intros (k & Hk & _). now destruct k.
  - split.
    + intros [= ->]. exists 0%nat. split; [reflexivity|]. intros j Hj; lia.
    + intros (k & Hk & Hall). destruct k as [|k]; [cbn in Hk; congruence|].
      specialize (Hall 0%nat ltac:(lia)). discriminate.
  - rewrite IH. split.
    + intros (k & Hk & Hall). exists (S k). split; [exact Hk|].
      intros [|j] Hj; [reflexivity|]. apply Hall. lia.
    + intros (k & Hk & Hall). destruct k as [|k]; [discriminate|].
      exists k. split; [exact Hk|]. intros j Hj. apply (Hall (S j)). lia.
Qed.

Lemma first_error_None (l : list (option error)) :
  first_error l = None <-> forall k c, nth_error l k = Some c -> c = None.
Proof.
  induction l as [|[e'|] l IH]; cbn [first_error].
  - split; [|reflexivity]. intros _ [|k] c; discriminate.
  - split; [discriminate|]. intros H. now specialize (H 0%nat _ eq_refl).
  - rewrite IH. split.
    + intros H [|k] c Hk; [cbn in Hk; congruence|]. now apply (H k).
    + intros H k c Hk. now apply (H (S k)).
Qed.

Lemma pair_checks_valid (rest : list byte) :
  forall (a : byte) (i : Z),
    first_error (pair_checks a rest i) = None
    <-> forallb is_digit rest = true /\ zeros_ok a rest = true.
Proof.
  induction rest as [|b rest IH]; intros a i;
    cbn [pair_checks first_error forallb zeros_ok].
  - now split.
  - unfold pair_check. destruct (is_digit b); cbn [negb andb].
    2:{ split; [discriminate|]. intros [H _]; discriminate. }
    destruct (u8 b =? u8 "0"), (u8 a =? u8 "1"), (u8 a =? u8 "2");
      cbn [negb andb orb]; try apply IH.
    split; [discriminate|]. intros [_ H]; discriminate.
Qed.

Lemma checks_valid (p : list byte) :
  valid p = true <-> p <> [] /\ first_error (checks p) = None.
Proof.
  destruct p as [|a rest]; cbn [valid checks first_error].
  - split; [discriminate|]. intros [H _]; congruence.
  - unfold start_check, is_digit. u8_consts.
    destruct (Z.eqb_spec (u8 a) 48) as [E|E].
    + rewrite E. cbn. split; [discriminate|]. intros [_ H]; discriminate.
    + destruct (Z.leb_spec 49 (u8 a)) as [L1|L1],
        (Z.leb_spec (u8 a) 57) as [L2|L2],
        (Z.leb_spec 48 (u8 a)) as [L3|L3]; try lia; cbn [negb andb].
      all: try (split; [discriminate|intros [_ Hc]; discriminate]).
      rewrite pair_checks_valid, andb_true_iff.
      split; [intros Hc; split; [discriminate|exact Hc]|intros [_ Hc]; exact Hc].
Qed.

(** ** Claims on the Fibonacci cache *)










(** C4: in every state the program reaches (by calls of [fib], on their
    own or from [getPossibleCombinations]) the table starts with 0 and 1
    and each later entry is the sum of the two before it; a call of [fib]
    that returns keeps every entry that was there, pointer and number, and
    only appends; a call with n below the frontier leaves the store as it
    was. *)
Theorem C4_cache_table_invariant (st : state) :
  reachable st ->
  (entry st 0 = Some 0 /\ entry st 1 = Some 1
   /\ forall i, (2 <= i < length (f st))%nat ->
        exists a b, entry st (i - 1) = Some a /\ entry st (i - 2) = Some b
                    /\ entry st i = Some (a + b))
  /\ forall fuel n r st',
       0 <= n < 2 ^ 64 -> fib fuel n st = Ok (r, st') ->
       reachable st'
       /\ (exists lf, f st' = f st ++ lf)
       /\ (forall i, (i < length (f st))%nat ->
             nth_error (f st') i = nth_error (f st) i
             /\ entry st' i = entry st i)
       /\ (n < maxFib st -> st' = st).
Proof.
  intros Hr. pose proof (reachable_cache_ok st Hr) as Hok.
  pose proof Hok as (Hlen & Hrange & Hent). split.
  - split; [apply (Hent 0%nat); lia|]. split; [apply (Hent 1%nat); lia|].
    intros i Hi. exists (Fib (i - 1)), (Fib (i - 2)).
    split; [apply Hent; lia|]. split; [apply Hent; lia|].
    rewrite Hent by lia. f_equal.
    destruct i as [|[|i]]; [lia|lia|].
    rewrite Fib_SS. f_equal; f_equal; lia.
  - intros fuel n r st' Hn Hrun.
    destruct (fib_Ok_inv fuel n st st' r Hok Hn Hrun)
      as (Hok' & Hext & _ & _ & Hsame & _).
    split; [eapply reach_fib; eauto|].
    split; [destruct Hext as [_ (li & lf & _ & Hf & _)]; now exists lf|].
    split; [|exact Hsame].
    intros i Hi. split.
    + destruct Hext as [_ (li & lf & _ & Hf & _)]. rewrite Hf.
      now apply nth_error_app1.
    + rewrite (Hent i Hi). eapply extends_entry; [exact Hext|]. now apply Hent.
Qed.

Lemma C4_cache_table_invariant_witness :
  let st' := mkState [] [0; 1; 1; 2] [0; 1; 2; 3]%nat 4 in
  fib 2 3 (init []) = Ok (3%nat, st')
  /\ entry (init []) 0 = Some 0 /\ entry (init []) 1 = Some 1
  /\ reachable st'
  /\ (exists lf, f st' = f (init []) ++ lf)
  /\ entry st' 1 = entry (init []) 1.
Proof.
  intros st'.
  destruct (C4_cache_table_invariant (init []) (reach_init [])) as [H1 H2].
  destruct (H2 2%nat 3 3%nat st' ltac:(lia) eq_refl) as (Hr & Hf & Hkeep & _).
  split; [reflexivity|]. split; [apply H1|]. split; [apply H1|].
  split; [exact Hr|]. split; [exact Hf|].
  apply (Hkeep 1%nat). cbn. lia.
Defined.

(** ** Claims on validation errors *)

Lemma nth_error_pair_checks (rest : list byte) :
  forall (a : byte) (i : Z) (j : nat),
    nth_error (pair_checks a rest i) j
    = match nth_error (a :: rest) j, nth_error (a :: rest) (S j) with
      | Some x, Some y => Some (pair_check x y (i + Z.of_nat j))
      | _, _ => None
      end.
Proof.
  induction rest as [|b rest IH]; intros a i j.
  - destruct j as [|[|j]]; reflexivity.
  - destruct j as [|j].
    + cbn. now rewrite Z.add_0_r.
    + cbn [pair_checks nth_error]. rewrite IH. cbn [nth_error].
      replace (i + 1 + Z.of_nat j) with (i + Z.of_nat (S j)) by lia.
      reflexivity.
Qed.

(** What [checks] lists at each position: rule 2 at the first byte, rule 3
    at byte [S j] with its predecessor and its position [j] in the
    remainder. *)
Lemma nth_error_checks (p : list byte) (k : nat) :
  nth_error (checks p) k
  = match k with
    | O => option_map start_check (nth_error p 0)
    | S j => match nth_error p j, nth_error p (S j) with
             | Some a, Some b => Some (pair_check a b (Z.of_nat j))
             | _, _ => None
             end
    end.
Proof.
  destruct p as [|a rest]; [now destruct k as [|[|k]]|].
  destruct k as [|j]; [reflexivity|].
  cbn [checks nth_error]. now rewrite nth_error_pair_checks.
Qed.

Lemma checks_firstn (p p' : list byte) (k j : nat) :
  firstn (S k) p' = firstn (S k) p -> (j <= k)%nat ->
  nth_error (checks p') j = nth_error (checks p) j.
Proof.
  intros H Hj.
  assert (Hn : forall i, (i <= k)%nat -> nth_error p' i = nth_error p i).
  { intros i Hi.
    pose proof (nth_error_firstn (S k) p' i) as H1.
    pose proof (nth_error_firstn (S k) p i) as H2.
    replace (i <? S k)%nat with true in H1, H2
      by (symmetry; apply Nat.ltb_lt; lia).
    rewrite <- H1, <- H2. now rewrite H. }
  rewrite !nth_error_checks. destruct j as [|j].
  - now rewrite Hn by lia.
  - now rewrite !Hn by lia.
Qed.

(** C2: on a non-empty input the call reports an error exactly when the
    input is invalid; the error is the violation of rule 2 or 3 at the
    first byte, in scan order, that violates one (leading zero,
    non-digit start, non-digit at position i of the remainder, zero after
    a digit a other than '1' and '2' at position i); the number returned
    with an error is 0, no partial product; and the bytes after the
    violation play no part: every input that agrees up to the violating
    byte gets the same answer. *)
Theorem C2_error_iff_first_violation (fuel : nat) (st : state) :
  cache_ok st -> input st <> [] ->
  Z.of_nat (length (input st)) <= maxInt ->
  (length (input st) <= fuel)%nat ->
  exists v e st',
    run fuel st = Ok (v, e, st')
    /\ (e = None <-> valid (input st) = true)
    /\ (forall err,
          e = Some err <->
          exists k, nth_error (checks (input st)) k = Some (Some err)
                    /\ forall j, (j < k)%nat ->
                                 nth_error (checks (input st)) j = Some None)
    /\ (e <> None -> v = 0)
    /\ (forall err, e = Some err ->
          exists k, nth_error (checks (input st)) k = Some (Some err)
            /\ forall fuel2 st2,
                 cache_ok st2 ->
                 firstn (S k) (input st2) = firstn (S k) (input st) ->
                 Z.of_nat (length (input st2)) <= maxInt ->
                 (length (input st2) <= fuel2)%nat ->
                 exists st2', run fuel2 st2 = Ok (0, Some err, st2')).
Proof.
  intros Hok Hne Hlen Hfuel.
  destruct (run_refines fuel st Hok Hne Hlen Hfuel)
    as (v & e & st' & Hrun & Hpure & _ & _).
  destruct (count_pure_error _ _ _ Hpure) as [He Hv].
  exists v, e, st'. split; [exact Hrun|].
  split; [rewrite checks_valid, He; tauto|].
  split; [intros err; rewrite He; apply first_error_Some|].
  split; [exact Hv|].
  intros err Herr. rewrite He in Herr.
  apply first_error_Some in Herr as (k & Hk & Hbefore).
  exists k. split; [exact Hk|].
  intros fuel2 st2 Hok2 Hpre Hlen2 Hfuel2.
  assert (Hne2 : input st2 <> []).
  { intros E. rewrite E in Hpre. destruct (input st); [congruence|discriminate]. }
  destruct (run_refines fuel2 st2 Hok2 Hne2 Hlen2 Hfuel2)
    as (v2 & e2 & st2' & Hrun2 & Hpure2 & _ & _).
  destruct (count_pure_error _ _ _ Hpure2) as [He2 Hv2].
  assert (E2 : e2 = Some err).
  { rewrite He2. apply first_error_Some. exists k. split.
    - rewrite (checks_firstn _ _ k k Hpre) by lia. exact Hk.
    - intros j Hj. rewrite (checks_firstn _ _ k j Hpre) by lia. now apply Hbefore. }
  rewrite E2 in Hrun2, Hv2. rewrite Hv2 in Hrun2 by discriminate.
  now exists st2'.
Qed.

Lemma C2_error_iff_first_violation_witness :
  exists st', run 4 (init (B "12a3")) = Ok (0, Some (ErrNonDigitAt 1), st').
Proof.
  destruct (C2_error_iff_first_violation 4 (init (B "12a3")))
    as (v & e & st' & Hrun & _ & Herr & Hv & _).
  - apply cache_ok_init.
  - discriminate.
  - vm_compute. discriminate.
  - vm_compute. lia.
  - assert (He : e = Some (ErrNonDigitAt 1)).
    { apply Herr. exists 2%nat. split; [reflexivity|].
      intros [|[|j]] Hj; [reflexivity|reflexivity|lia]. }
    subst e. rewrite Hv in Hrun by discriminate. now exists st'.
Defined.

(** ** Claims on valid inputs *)

(** On a valid input the call returns the product, over the maximal
    ambiguous clusters, of F(clusterLength + 2). *)
Lemma run_valid (fuel : nat) (st : state) :
  cache_ok st -> valid (input st) = true ->
  Z.of_nat (length (input st)) <= maxInt ->
  (length (input st) <= fuel)%nat ->
  exists st', run fuel st = Ok (cluster_product (input st), None, st')
              /\ cache_ok st' /\ preserves st st'.
Proof.
  intros Hok Hv Hlen Hfuel.
  assert (Hne : input st <> []) by (destruct (input st); [discriminate|congruence]).
  destruct (run_refines fuel st Hok Hne Hlen Hfuel)
    as (v & e & st' & Hrun & Hpure & Hok' & Hpres).
  rewrite (count_pure_valid _ Hv) in Hpure. injection Hpure as <- <-.
  now exists st'.
Qed.

Lemma runs_app_false (l1 l2 : list bool) :
  forall cur, runs cur (l1 ++ false :: l2) = runs cur l1 ++ runs 0 l2.
Proof.
  induction l1 as [|[|] l1 IH]; intros cur; cbn [app runs].
  - reflexivity.
  - apply IH.
  - now rewrite IH, app_assoc.
Qed.

Lemma pair_flags_snoc (l t : list byte) (a b : byte) :
  forall x, pair_flags x (l ++ [a] ++ b :: t)
            = pair_flags x (l ++ [a]) ++ ambiguous a b :: pair_flags b t.
Proof.
  induction l as [|y l IH]; intros x; cbn [app pair_flags].
  - reflexivity.
  - f_equal. apply IH.
Qed.

Lemma clusters_app (s t : list byte) (a b : byte) :
  ambiguous a b = false ->
  clusters ((s ++ [a]) ++ b :: t) = clusters (s ++ [a]) ++ clusters (b :: t).
Proof.
  intros Hab. destruct s as [|x l]; cbn [app clusters].
  - cbn [pair_flags runs]. now rewrite Hab.
  - rewrite <- app_assoc, pair_flags_snoc, Hab. apply runs_app_false.
Qed.

Lemma cluster_product_app (s t : list byte) (a b : byte) :
  ambiguous a b = false ->
  cluster_product ((s ++ [a]) ++ b :: t)
  = cluster_product (s ++ [a]) * cluster_product (b :: t).
Proof.
  intros Hab. unfold cluster_product.
  now rewrite (clusters_app s t a b Hab), map_app, product_app.
Qed.

Lemma pair_flags_ones (m : nat) :
  pair_flags "1" (repeat "1"%byte m) = repeat true m.
Proof. induction m as [|m IH]; cbn; [reflexivity|now f_equal]. Qed.

Lemma runs_true (m : nat) :
  forall cur, runs cur (repeat true m)
              = if (0 <? cur + m)%nat then [(cur + m)%nat] else [].
Proof.
  induction m as [|m IH]; intros cur; cbn [repeat runs].
  - now rewrite Nat.add_0_r.
  - rewrite IH. now replace (S cur + m)%nat with (cur + S m)%nat by lia.
Qed.

Lemma valid_ones (m : nat) : valid (repeat "1"%byte (S m)) = true.
Proof.
  cbn [repeat valid].
  assert (H : forallb is_digit (repeat "1"%byte m) = true
              /\ zeros_ok "1" (repeat "1"%byte m) = true).
  { induction m as [|m [IH1 IH2]]; [now split|].
    cbn [repeat forallb zeros_ok]. rewrite IH1, IH2. now split. }
  destruct H as [-> ->]. reflexivity.
Qed.

Lemma cluster_product_ones (m : nat) :
  cluster_product (repeat "1"%byte (S m)) = Fib (S m + 1).
Proof.
  unfold cluster_product. cbn [repeat clusters].
  rewrite pair_flags_ones, runs_true. destruct m as [|m]; [reflexivity|].
  cbn [Nat.add Nat.ltb Nat.leb map product fold_right].
  rewrite Z.mul_1_r. f_equal. lia.
Qed.

Lemma pair_flags_unambiguous (rest : list byte) :
  forall a,
    (forall k x y, nth_error (a :: rest) k = Some x ->
                   nth_error (a :: rest) (S k) = Some y ->
                   ambiguous x y = false) ->
    pair_flags a rest = repeat false (length rest).
Proof.
  induction rest as [|b rest IH]; intros a H; cbn [pair_flags length repeat].
  - reflexivity.
  - rewrite (H 0%nat a b eq_refl eq_refl). f_equal. apply IH.
    intros k x y Hx Hy. now apply (H (S k)).
Qed.

Lemma runs_false (m : nat) : runs 0 (repeat false m) = [].
Proof. induction m as [|m IH]; [reflexivity|exact IH]. Qed.

(** C5: when [s] and [t] are valid, their concatenation is valid and the
    last digit of [s] with the first digit of [t] is no ambiguous pair, the
    count of the concatenation is the product of the counts of [s] and
    [t], in whatever cache states the three calls are made. *)
Theorem C5_multiplicative (fuel : nat) (s t : list byte) (a b : byte)
  (st1 st2 st3 : state) :
  cache_ok st1 -> cache_ok st2 -> cache_ok st3 ->
  input st1 = s ++ [a] -> input st2 = b :: t ->
  input st3 = (s ++ [a]) ++ b :: t ->
  valid (s ++ [a]) = true -> valid (b :: t) = true ->
  valid ((s ++ [a]) ++ b :: t) = true ->
  ambiguous a b = false ->
  Z.of_nat (length (input st3)) <= maxInt ->
  (length (input st3) <= fuel)%nat ->
  exists v1 v2 st1' st2' st3',
    run fuel st1 = Ok (v1, None, st1')
    /\ run fuel st2 = Ok (v2, None, st2')
    /\ run fuel st3 = Ok (v1 * v2, None, st3').
Proof.
  intros Hok1 Hok2 Hok3 Hi1 Hi2 Hi3 Hv1 Hv2 Hv3 Hab Hlen Hfuel.
  rewrite Hi3 in Hlen, Hfuel. rewrite !length_app in Hlen, Hfuel.
  cbn [length] in Hlen, Hfuel.
  destruct (run_valid fuel st1 Hok1) as (st1' & H1 & _);
    rewrite ?Hi1, ?length_app; cbn [length]; auto; try lia.
  destruct (run_valid fuel st2 Hok2) as (st2' & H2 & _);
    rewrite ?Hi2; cbn [length]; auto; try lia.
  destruct (run_valid fuel st3 Hok3) as (st3' & H3 & _);
    rewrite ?Hi3, ?length_app; cbn [length]; auto; try lia.
  rewrite Hi1 in H1. rewrite Hi2 in H2. rewrite Hi3 in H3.
  rewrite (cluster_product_app s t a b Hab) in H3.
  now exists (cluster_product (s ++ [a])), (cluster_product (b :: t)),
    st1', st2', st3'.
Qed.

Lemma C5_multiplicative_witness :
  exists v1 v2 st1' st2' st3',
    run 5 (init (B "12")) = Ok (v1, None, st1')
    /\ run 5 (init (B "711")) = Ok (v2, None, st2')
    /\ run 5 (init (B "12711")) = Ok (v1 * v2, None, st3').
Proof.
  apply (C5_multiplicative 5 (B "1") (B "11") "2" "7").
  - apply cache_ok_init.
  - apply cache_ok_init.
  - apply cache_ok_init.
  - reflexivity.
  - reflexivity.
  - reflexivity.
  - reflexivity.
  - reflexivity.
  - reflexivity.
  - reflexivity.
  - vm_compute. discriminate.
  - vm_compute. lia.
Defined.

(** C6: on n >= 1 bytes '1' the call returns F(n+1); for n = 1..5 these
    are 1, 2, 3, 5, 8. *)
Theorem C6_run_of_ones (n fuel : nat) (st : state) :
  cache_ok st -> (1 <= n)%nat -> Z.of_nat n <= maxInt ->
  input st = repeat "1"%byte n -> (n <= fuel)%nat ->
  (exists st', run fuel st = Ok (Fib (n + 1), None, st'))
  /\ map (fun k => Fib (k + 1)) [1; 2; 3; 4; 5]%nat = [1; 2; 3; 5; 8].
Proof.
  intros Hok Hn Hlen Hin Hfuel. split; [|reflexivity].
  destruct n as [|m]; [lia|].
  destruct (run_valid fuel st Hok) as (st' & Hrun & _);
    rewrite ?Hin, ?repeat_length; auto using valid_ones.
  rewrite Hin, cluster_product_ones in Hrun. now exists st'.
Qed.

Lemma C6_run_of_ones_witness :
  (exists st', run 5 (init (B "11111")) = Ok (Fib (5 + 1), None, st'))
  /\ map (fun k => Fib (k + 1)) [1; 2; 3; 4; 5]%nat = [1; 2; 3; 5; 8].
Proof.
  apply (C6_run_of_ones 5 5 (init (B "11111"))).
  - apply cache_ok_init.
  - lia.
  - vm_compute. discriminate.
  - reflexivity.
  - lia.
Defined.

(** C7: on a valid input in which no two adjacent digits form an ambiguous
    pair the call returns 1. *)
Theorem C7_no_ambiguous_pair_gives_one (fuel : nat) (st : state) :
  cache_ok st -> valid (input st) = true ->
  (forall k x y, nth_error (input st) k = Some x ->
                 nth_error (input st) (S k) = Some y ->
                 ambiguous x y = false) ->
  Z.of_nat (length (input st)) <= maxInt ->
  (length (input st) <= fuel)%nat ->
  exists st', run fuel st = Ok (1, None, st').
Proof.
  intros Hok Hv Hna Hlen Hfuel.
  destruct (run_valid fuel st Hok Hv Hlen Hfuel) as (st' & Hrun & _).
  exists st'. rewrite Hrun. do 3 f_equal.
  unfold cluster_product. destruct (input st) as [|a rest]; [discriminate|].
  cbn [clusters]. now rewrite (pair_flags_unambiguous rest a Hna), runs_false.
Qed.

Lemma C7_no_ambiguous_pair_gives_one_witness :
  exists st', run 4 (init (B "2739")) = Ok (1, None, st').
Proof.
  apply (C7_no_ambiguous_pair_gives_one 4 (init (B "2739"))).
  - apply cache_ok_init.
  - reflexivity.
  - intros [|[|[|[|k]]]] x y Hx Hy; cbn in Hx, Hy;
      try discriminate; injection Hx as <-; injection Hy as <-; reflexivity.
  - vm_compute. discriminate.
  - vm_compute. lia.
Defined.

(** C8: the call returns 3 on "226", 3 on "111" (the cluster that runs to
    the end of the input is flushed) and 233 = F(13) on twelve bytes '1',
    in every cache state. *)
Theorem C8_examples (fuel : nat) (st : state) (p : list byte) (v : Z) :
  cache_ok st ->
  In (p, v) [(B "226", 3); (B "111", 3); (B "111111111111", 233)] ->
  input st = p -> (length p <= fuel)%nat ->
  (exists st', run fuel st = Ok (v, None, st')) /\ Fib 13 = 233.
Proof.
  intros Hok Hin Hp Hfuel. split; [|reflexivity].
  assert (Hv : valid p = true /\ cluster_product p = v
               /\ Z.of_nat (length p) <= maxInt).
  { destruct Hin as [E|[E|[E|[]]]]; injection E as <- <-;
      (split; [reflexivity|split; [reflexivity|vm_compute; discriminate]]). }
  destruct Hv as (Hv & Hc & Hl). subst p.
  destruct (run_valid fuel st Hok Hv Hl Hfuel) as (st' & Hrun & _).
  rewrite Hc in Hrun. now exists st'.
Qed.

Lemma C8_examples_witness :
  (exists st', run 3 (init (B "226")) = Ok (3, None, st')) /\ Fib 13 = 233.
Proof.
  apply (C8_examples 3 (init (B "226")) (B "226") 3).
  - apply cache_ok_init.
  - left. reflexivity.
  - reflexivity.
  - vm_compute. lia.
Defined.

(** C9: two calls in a row on the same non-empty input return the same
    number and the same error, and so does a call in any other cache
    state; the input is as it was after each call. *)
Theorem C9_same_result_and_input_kept (fuel : nat) (st : state) :
  cache_ok st -> input st <> [] ->
  Z.of_nat (length (input st)) <= maxInt ->
  (length (input st) <= fuel)%nat ->
  exists v e st1 st2,
    run fuel st = Ok (v, e, st1)
    /\ run fuel st1 = Ok (v, e, st2)
    /\ input st1 = input st /\ input st2 = input st
    /\ forall fuel' other,
         cache_ok other -> input other = input st ->
         (length (input st) <= fuel')%nat ->
         exists st3, run fuel' other = Ok (v, e, st3)
                     /\ input st3 = input st.
Proof.
  intros Hok Hne Hlen Hfuel.
  destruct (run_refines fuel st Hok Hne Hlen Hfuel)
    as (v & e & st1 & Hrun & Hpure & Hok1 & Hin1 & _).
  assert (Hany : forall fuel' other,
             cache_ok other -> input other = input st ->
             (length (input st) <= fuel')%nat ->
             exists st3, run fuel' other = Ok (v, e, st3)
                         /\ input st3 = input st).
  { intros fuel' other Hoko Hino Hfuel'.
    destruct (run_refines fuel' other Hoko) as (v' & e' & st3 & Hr & Hp & _ & Hi & _);
      rewrite ?Hino; auto.
    rewrite Hino in Hp. rewrite Hpure in Hp. injection Hp as <- <-.
    exists st3. split; [exact Hr|congruence]. }
  destruct (Hany fuel st1 Hok1 Hin1 Hfuel) as (st2 & Hrun2 & Hin2).
  exists v, e, st1, st2. auto.
Qed.

Lemma C9_same_result_and_input_kept_witness :
  exists v e st1 st2,
    run 3 (init (B "226")) = Ok (v, e, st1)
    /\ run 3 st1 = Ok (v, e, st2)
    /\ input st1 = B "226" /\ input st2 = B "226".
Proof.
  destruct (C9_same_result_and_input_kept 3 (init (B "226")))
    as (v & e & st1 & st2 & H1 & H2 & H3 & H4 & _).
  - apply cache_ok_init.
  - discriminate.
  - vm_compute. discriminate.
  - vm_compute. lia.
  - exists v, e, st1, st2. auto.
Defined.

(** C10: on a non-empty input no index is out of range, the call returns;
    on the empty input the read of [p[0]] is out of range and the call
    panics, in every store and with any fuel, where a validation error
    would be a return. *)
Theorem C10_index_safety (fuel : nat) (st : state) :
  (cache_ok st -> input st <> [] ->
   Z.of_nat (length (input st)) <= maxInt ->
   (length (input st) <= fuel)%nat ->
   exists r e st', getPossibleCombinations fuel st = Ok (r, e, st'))
  /\ (input st = [] ->
      index (input st) 0 = Panic
      /\ getPossibleCombinations fuel st = Panic).
Proof.
  split.
  - intros Hok Hne Hlen Hfuel.
    destruct (run_refines fuel st Hok Hne Hlen Hfuel)
      as (v & e & st' & Hrun & _).
    unfold run in Hrun.
    destruct (getPossibleCombinations fuel st) as [[[r e'] st'']| |];
      cbn [bind] in Hrun; try discriminate.
    now exists r, e', st''.
  - intros Hin. unfold getPossibleCombinations, NewInt.
    cbn [input set_ints]. now rewrite Hin.
Qed.

Lemma C10_index_safety_witness :
  (exists r e st', getPossibleCombinations 2 (init (B "30")) = Ok (r, e, st'))
  /\ getPossibleCombinations 2 (init []) = Panic.
Proof.
  split.
  - apply (C10_index_safety 2 (init (B "30"))).
    + apply cache_ok_init.
    + discriminate.
    + vm_compute. discriminate.
    + vm_compute. lia.
  - apply (C10_index_safety 2 (init [])). reflexivity.
Defined.

(** ** The decodings of an input *)

Lemma u8_inj (a b : byte) : u8 a = u8 b -> a = b.
Proof.
  unfold u8. intros H. apply N2Z.inj in H.
  pose proof (Byte.of_to_N a) as Ha. rewrite H, Byte.of_to_N in Ha. congruence.
Qed.

Lemma u8_digit (d : nat) : (d <= 9)%nat -> u8 (digit d) = 48 + Z.of_nat d.
Proof.
  intros H. do 10 (destruct d as [|d]; [reflexivity|]). lia.
Qed.

Lemma is_digit_range (b : byte) : is_digit b = true <-> 48 <= u8 b <= 57.
Proof.
  unfold is_digit. u8_consts. rewrite andb_true_iff, !Z.leb_le. tauto.
Qed.

Lemma digit_digit_val (b : byte) : is_digit b = true -> digit (digit_val b) = b.
Proof.
  intros H. apply is_digit_range in H. apply u8_inj.
  unfold digit_val. rewrite u8_0. rewrite u8_digit by lia. lia.
Qed.

Lemma digit_val_bound (b : byte) : is_digit b = true -> (digit_val b <= 9)%nat.
Proof.
  intros H. apply is_digit_range in H. unfold digit_val. rewrite u8_0. lia.
Qed.

Lemma is_digit_digit (d : nat) : is_digit (digit d) = true.
Proof. do 10 (destruct d as [|d]; [reflexivity|]). reflexivity. Qed.

Lemma digit_val_digit (d : nat) : (d <= 9)%nat -> digit_val (digit d) = d.
Proof.
  intros H. unfold digit_val. rewrite u8_0, u8_digit by assumption. lia.
Qed.

Lemma decodings_sound (p : list byte) :
  (forall l, In l (decodings p) -> is_decoding l p)
  /\ (forall a l, In l (decodings (a :: p)) -> is_decoding l (a :: p)).
Proof.
  assert (One : forall a rest l',
             one_ok a = true ->
             is_decoding l' rest ->
             is_decoding (digit_val a :: l') (a :: rest)).
  { intros a rest l' Hc [Hall Henc]. unfold one_ok in Hc.
    apply andb_prop in Hc as [Hd H1]. apply Nat.leb_le in H1.
    pose proof (digit_val_bound a Hd) as Hb. split.
    - constructor; [lia|exact Hall].
    - cbn [encode flat_map]. unfold code_digits.
      replace (digit_val a <? 10)%nat with true
        by (symmetry; apply Nat.ltb_lt; lia).
      rewrite (digit_digit_val a Hd). cbn [app]. f_equal. exact Henc. }
  assert (Two : forall a b rest l',
             two_ok a b = true ->
             is_decoding l' rest ->
             is_decoding (code2 a b :: l') (a :: b :: rest)).
  { intros a b rest l' Hc [Hall Henc]. unfold two_ok, code2 in *.
    apply andb_prop in Hc as [Hc H26]. apply andb_prop in Hc as [Hc H10].
    apply andb_prop in Hc as [Hda Hdb].
    apply Nat.leb_le in H10, H26.
    pose proof (digit_val_bound a Hda) as Hba.
    pose proof (digit_val_bound b Hdb) as Hbb. split.
    - constructor; [lia|exact Hall].
    - cbn [encode flat_map]. unfold code_digits.
      replace (10 * digit_val a + digit_val b <? 10)%nat with false
        by (symmetry; apply Nat.ltb_ge; lia).
      replace ((10 * digit_val a + digit_val b) / 10)%nat with (digit_val a)
        by (apply Nat.div_unique with (digit_val b); lia).
      replace ((10 * digit_val a + digit_val b) mod 10)%nat with (digit_val b)
        by (apply Nat.mod_unique with (digit_val a); lia).
      rewrite (digit_digit_val a Hda), (digit_digit_val b Hdb).
      cbn [app]. do 2 f_equal. exact Henc. }
  induction p as [|b rest [IH1 IH2]].
  - split.
    + intros l [<-|[]]. split; [constructor|reflexivity].
    + intros a l Hin. cbn [decodings] in Hin. rewrite app_nil_r in Hin.
      destruct (one_ok a) eqn:Hc; [|destruct Hin].
      destruct Hin as [<-|[]]. apply One; [exact Hc|].
      split; [constructor|reflexivity].
  - split; [apply IH2|].
    intros a l Hin. cbn [decodings] in Hin. apply in_app_or in Hin.
    destruct Hin as [Hin|Hin].
    + destruct (one_ok a) eqn:Hc; [|destruct Hin].
      apply in_map_iff in Hin as (l' & <- & Hl'). apply One; [exact Hc|].
      apply IH2. exact Hl'.
    + destruct (two_ok a b) eqn:Hc; [|destruct Hin].
      apply in_map_iff in Hin as (l' & <- & Hl'). apply Two; [exact Hc|].
      apply IH1. exact Hl'.
Qed.

Lemma decodings_complete (l : list nat) :
  Forall (fun n => (1 <= n <= 26)%nat) l -> In l (decodings (encode l)).
Proof.
  induction 1 as [|n l Hn Hall IH]; [now left|].
  cbn [encode flat_map]. fold (encode l). unfold code_digits.
  destruct (n <? 10)%nat eqn:E.
  - apply Nat.ltb_lt in E. cbn [app decodings]. apply in_or_app. left.
    unfold one_ok. rewrite is_digit_digit, digit_val_digit by lia.
    replace (1 <=? n)%nat with true by (symmetry; apply Nat.leb_le; lia).
    cbn [andb]. now apply in_map.
  - apply Nat.ltb_ge in E. cbn [app decodings]. apply in_or_app. right.
    unfold two_ok, code2. rewrite !is_digit_digit.
    assert (Hq : (n / 10 < 3)%nat)
      by (apply Nat.Div0.div_lt_upper_bound; lia).
    pose proof (Nat.mod_upper_bound n 10 ltac:(lia)) as Hr.
    rewrite !digit_val_digit by lia.
    rewrite <- (Nat.div_mod_eq n 10).
    replace (10 <=? n)%nat with true by (symmetry; apply Nat.leb_le; lia).
    replace (n <=? 26)%nat with true by (symmetry; apply Nat.leb_le; lia).
    cbn [andb]. now apply in_map.
Qed.

(** [decodings] lists the decodings, all of them. *)
Lemma decodings_spec (p : list byte) (l : list nat) :
  In l (decodings p) <-> is_decoding l p.
Proof.
  split; [apply decodings_sound|].
  intros [Hall <-]. now apply decodings_complete.
Qed.

Lemma NoDup_map_cons (x : nat) (L : list (list nat)) :
  NoDup L -> NoDup (map (cons x) L).
Proof.
  induction 1 as [|l L Hnin Hnd IH]; cbn [map]; constructor; [|exact IH].
  intros Hin. apply in_map_iff in Hin as (l' & [= ->] & Hl'). contradiction.
Qed.

(** [decodings] lists no decoding twice. *)
Lemma decodings_NoDup (p : list byte) :
  NoDup (decodings p) /\ forall a, NoDup (decodings (a :: p)).
Proof.
  assert (Step : forall a rest,
             NoDup (decodings rest) ->
             (forall b rest', rest = b :: rest' -> NoDup (decodings rest')) ->
             NoDup (decodings (a :: rest))).
  { intros a rest H1 H2. cbn [decodings]. apply NoDup_app.
    - destruct (one_ok a); [|constructor].
      now apply NoDup_map_cons.
    - destruct rest as [|b rest']; [constructor|].
      destruct (two_ok a b); [|constructor].
      apply NoDup_map_cons. now apply (H2 b rest').
    - intros l HA HB.
      destruct (one_ok a) eqn:Hc; [|destruct HA]. unfold one_ok in Hc.
      apply andb_prop in Hc as [Hd _]. apply digit_val_bound in Hd.
      apply in_map_iff in HA as (l1 & <- & _).
      destruct rest as [|b rest']; [destruct HB|].
      destruct (two_ok a b) eqn:Hc2; [|destruct HB]. unfold two_ok, code2 in *.
      apply andb_prop in Hc2 as [Hc2 _]. apply andb_prop in Hc2 as [_ H10].
      apply Nat.leb_le in H10.
      apply in_map_iff in HB as (l2 & [= E _] & _). lia. }
  induction p as [|b rest [IH1 IH2]].
  - split; [repeat constructor; intros []|].
    intros a. apply Step; [repeat constructor; intros []|]. discriminate.
  - split; [apply IH2|]. intros a. apply Step; [apply IH2|].
    intros b' rest' [= <- <-]. exact IH1.
Qed.

(** ** Where the count is the number of decodings *)

Lemma open_product_nil (cur : nat) : open_product cur [] = Fib (cur + 2).
Proof.
  unfold open_product, fibs. cbn [runs]. destruct cur as [|cur]; [reflexivity|].
  cbn [Nat.ltb Nat.leb map product fold_right]. lia.
Qed.

Lemma open_product_false (cur : nat) (l : list bool) :
  open_product cur (false :: l) = Fib (cur + 2) * open_product 0 l.
Proof.
  unfold open_product, fibs. cbn [runs]. rewrite map_app, product_app.
  f_equal. destruct cur as [|cur]; [reflexivity|].
  cbn [Nat.ltb Nat.leb map product fold_right]. lia.
Qed.

Lemma open_product_add (l : list bool) :
  forall cur,
    open_product (S (S cur)) l = open_product (S cur) l + open_product cur l.
Proof.
  induction l as [|[|] l IH]; intros cur.
  - rewrite !open_product_nil.
    replace (S (S cur) + 2)%nat with (S (S (cur + 2))) by lia.
    replace (S cur + 2)%nat with (S (cur + 2)) by lia. apply Fib_SS.
  - apply (IH (S cur)).
  - rewrite !open_product_false.
    replace (S (S cur) + 2)%nat with (S (S (cur + 2))) by lia.
    replace (S cur + 2)%nat with (S (cur + 2)) by lia. rewrite Fib_SS. ring.
Qed.

Lemma count_decodings_cons (a : byte) (rest : list byte) :
  count_decodings (a :: rest)
  = (if one_ok a then count_decodings rest else 0)
    + match rest with
      | [] => 0
      | b :: rest' => if two_ok a b then count_decodings rest' else 0
      end.
Proof.
  unfold count_decodings. cbn [decodings]. rewrite length_app, Nat2Z.inj_add.
  f_equal.
  - destruct (one_ok a); [now rewrite length_map|reflexivity].
  - destruct rest as [|b rest']; [reflexivity|].
    destruct (two_ok a b); [now rewrite length_map|reflexivity].
Qed.

Lemma one_ok_range (a : byte) : one_ok a = true <-> 49 <= u8 a <= 57.
Proof.
  unfold one_ok, digit_val. rewrite andb_true_iff, is_digit_range, Nat.leb_le.
  rewrite u8_0. lia.
Qed.

Lemma two_ok_range (a b : byte) :
  two_ok a b = true <->
  48 <= u8 a <= 57 /\ 48 <= u8 b <= 57
  /\ 10 <= 10 * (u8 a - 48) + (u8 b - 48) <= 26.
Proof.
  unfold two_ok, code2, digit_val.
  rewrite !andb_true_iff, !is_digit_range, !Nat.leb_le. rewrite u8_0. lia.
Qed.

Lemma ambiguous_range (a b : byte) :
  ambiguous a b = true <->
  (u8 a = 49 /\ 49 <= u8 b <= 57) \/ (u8 a = 50 /\ 49 <= u8 b <= 54).
Proof.
  unfold ambiguous. u8_consts.
  rewrite orb_true_iff, !andb_true_iff, !Z.eqb_eq, !Z.leb_le. tauto.
Qed.

Lemma bool_iff (x : bool) (P : Prop) : (x = true <-> P) -> ~ P -> x = false.
Proof. intros H Hn. destruct x; [|reflexivity]. exfalso. tauto. Qed.

Lemma count_decodings_zero_head (a : byte) (rest : list byte) :
  u8 a = 48 -> count_decodings (a :: rest) = 0.
Proof.
  intros Ha. rewrite count_decodings_cons.
  rewrite (bool_iff _ _ (one_ok_range a)) by lia.
  destruct rest as [|b rest']; [reflexivity|].
  rewrite (bool_iff _ _ (two_ok_range a b)) by lia. reflexivity.
Qed.

Lemma zeros_ok_head (a b : byte) (rest : list byte) :
  zeros_ok a (b :: rest) = true ->
  (u8 b = 48 -> u8 a = 49 \/ u8 a = 50) /\ zeros_ok b rest = true.
Proof.
  cbn [zeros_ok]. u8_consts. rewrite andb_true_iff, !orb_true_iff, negb_true_iff.
  rewrite !Z.eqb_eq, Z.eqb_neq. intros [H ->]. split; [lia|reflexivity].
Qed.

(** On a valid input in which no '0' follows an ambiguous pair the product
    of the Fibonacci factors is the number of decodings. *)
Lemma count_decodings_clusters (n : nat) :
  forall (rest : list byte) (a : byte),
    (length rest <= n)%nat -> 49 <= u8 a <= 57 ->
    forallb is_digit rest = true -> zeros_ok a rest = true ->
    zero_free_clusters a rest = true ->
    count_decodings (a :: rest) = open_product 0 (pair_flags a rest).
Proof.
  induction n as [|n IH]; intros rest a Hlen Ha Hd Hz Hnz.
  - destruct rest; [|cbn in Hlen; lia].
    rewrite count_decodings_cons, (proj2 (one_ok_range a) Ha). reflexivity.
  - destruct rest as [|b rest'].
    { rewrite count_decodings_cons, (proj2 (one_ok_range a) Ha). reflexivity. }
    cbn [length] in Hlen. cbn [forallb] in Hd.
    apply andb_prop in Hd as [Hb Hd]. apply is_digit_range in Hb.
    apply zeros_ok_head in Hz as [Hz0 Hz].
    cbn [zero_free_clusters] in Hnz. apply andb_prop in Hnz as [Hnz0 Hnz].
    rewrite count_decodings_cons, (proj2 (one_ok_range a) Ha).
    cbn [pair_flags].
    destruct (Z.eq_dec (u8 b) 48) as [Hb0|Hb0].
    + rewrite (count_decodings_zero_head b rest' Hb0).
      rewrite (proj2 (two_ok_range a b)) by lia.
      rewrite (bool_iff _ _ (ambiguous_range a b)) by lia.
      rewrite open_product_false. change (Fib (0 + 2)) with 1.
      destruct rest' as [|c rest'']; [reflexivity|].
      cbn [forallb] in Hd. apply andb_prop in Hd as [Hc Hd].
      apply is_digit_range in Hc. apply zeros_ok_head in Hz as [Hz1 Hz].
      cbn [zero_free_clusters] in Hnz. apply andb_prop in Hnz as [_ Hnz].
      cbn [pair_flags].
      rewrite (bool_iff _ _ (ambiguous_range b c)) by lia.
      rewrite open_product_false. change (Fib (0 + 2)) with 1.
      rewrite (IH rest'' c) by (auto; cbn [length] in Hlen; lia). lia.
    + rewrite (IH rest' b) by (auto; lia).
      destruct (ambiguous a b) eqn:Hab.
      * apply ambiguous_range in Hab.
        rewrite (proj2 (two_ok_range a b)) by lia.
        change (open_product 0 (true :: pair_flags b rest'))
          with (open_product 1 (pair_flags b rest')).
        destruct rest' as [|c rest'']; [reflexivity|].
        cbn [forallb] in Hd. apply andb_prop in Hd as [Hc Hd].
        apply is_digit_range in Hc. apply zeros_ok_head in Hz as [Hz1 Hz].
        cbn [zero_free_clusters] in Hnz. apply andb_prop in Hnz as [_ Hnz].
        assert (Hc0 : u8 c <> 48).
        { cbn [andb] in Hnz0. rewrite u8_0 in Hnz0.
          apply negb_true_iff, Z.eqb_neq in Hnz0. exact Hnz0. }
        rewrite (IH rest'' c) by (auto; cbn [length] in Hlen; lia).
        cbn [pair_flags]. destruct (ambiguous b c).
        -- change (open_product 1 (true :: pair_flags c rest''))
             with (open_product 2 (pair_flags c rest'')).
           change (open_product 0 (true :: pair_flags c rest''))
             with (open_product 1 (pair_flags c rest'')).
           rewrite (open_product_add _ 0). lia.
        -- rewrite !open_product_false.
           change (Fib (1 + 2)) with 2. change (Fib (0 + 2)) with 1. lia.
      * rewrite (bool_iff _ _ (two_ok_range a b)).
        -- rewrite open_product_false. change (Fib (0 + 2)) with 1. lia.
        -- intros (_ & _ & H26). apply not_true_iff_false in Hab.
           apply Hab, ambiguous_range. lia.
Qed.

Lemma cluster_product_counts (p : list byte) :
  valid p = true -> no_zero_after_ambiguous p = true ->
  cluster_product p = count_decodings p.
Proof.
  destruct p as [|a rest]; [discriminate|]. cbn [valid no_zero_after_ambiguous].
  intros H Hnz. apply andb_prop in H as [H Hz]. apply andb_prop in H as [H Hd].
  apply andb_prop in H as [H1 H9]. u8_consts.
  apply Z.leb_le in H1. apply Z.leb_le in H9.
  symmetry. now apply (count_decodings_clusters (length rest)).
Qed.

(** On a valid input in which no '0' follows an ambiguous pair the call
    returns the number of decodings. *)
Lemma run_counts_decodings (fuel : nat) (st : state) :
  cache_ok st -> valid (input st) = true ->
  no_zero_after_ambiguous (input st) = true ->
  Z.of_nat (length (input st)) <= maxInt ->
  (length (input st) <= fuel)%nat ->
  exists st', run fuel st = Ok (count_decodings (input st), None, st').
Proof.
  intros Hok Hv Hnz Hlen Hfuel.
  destruct (run_valid fuel st Hok Hv Hlen Hfuel) as (st' & Hrun & _).
  rewrite (cluster_product_counts _ Hv Hnz) in Hrun. now exists st'.
Qed.

(** ** The count against the decodings *)

(** C1: the run of the call on "110", a valid input. The pair 1,1 is
    ambiguous and makes a cluster of length 1, which the zero that follows
    flushes as F(3) = 2; but the zero takes the second 1 for the code 10,
    and A,J is the only decoding. The call returns 2 where the number of
    decodings is 1. *)
Theorem C1_count_differs_on_110 :
  valid (B "110") = true
  /\ (exists st', run 3 (init (B "110")) = Ok (2, None, st'))
  /\ cluster_product (B "110") = 2
  /\ (forall l, is_decoding l (B "110") <-> l = [1; 10]%nat)
  /\ count_decodings (B "110") = 1.
Proof.
  split; [reflexivity|]. split; [eexists; vm_compute; reflexivity|].
  split; [reflexivity|]. split; [|reflexivity].
  intros l. rewrite <- decodings_spec.
  change (decodings (B "110")) with [[1; 10]%nat]. cbn [In].
  split; [intros [H|[]]; now symmetry|intros ->; now left].
Qed.

(** * Further properties *)

(** ** Fibonacci numbers *)

Lemma Fib_add (m : nat) :
  (forall n, Fib (m + n + 1) = Fib (m + 1) * Fib (n + 1) + Fib m * Fib n)
  /\ (forall n, Fib (S m + n + 1) = Fib (S m + 1) * Fib (n + 1) + Fib (S m) * Fib n).
Proof.
  induction m as [|m [IH1 IH2]].
  - split; intros n.
    + cbn [Nat.add]. change (Fib 1) with 1. change (Fib 0) with 0. lia.
    + replace (1 + n + 1)%nat with (S (S n)) by lia.
      replace (n + 1)%nat with (S n) by lia. rewrite Fib_SS.
      change (Fib (1 + 1)) with 1. change (Fib 1) with 1. lia.
  - split; [exact IH2|]. intros n.
    replace (S (S m) + n + 1)%nat with (S (S (m + n + 1))) by lia.
    rewrite Fib_SS.
    replace (S (m + n + 1)) with (S m + n + 1)%nat by lia.
    rewrite IH1, IH2.
    replace (S (S m) + 1)%nat with (S (S (m + 1))) by lia.
    replace (S m + 1)%nat with (S (m + 1)) by lia.
    rewrite (Fib_SS (m + 1)), (Fib_SS m).
    replace (m + 1)%nat with (S m) by lia. ring.
Qed.

Lemma Fib_mul_lt (a b : nat) : Fib (a + 2) * Fib (b + 2) < Fib (a + b + 3).
Proof.
  pose proof (proj1 (Fib_add (a + 1)) (b + 1)%nat) as H.
  replace (a + 1 + (b + 1) + 1)%nat with (a + b + 3)%nat in H by lia.
  replace (a + 1 + 1)%nat with (a + 2)%nat in H by lia.
  replace (b + 1 + 1)%nat with (b + 2)%nat in H by lia.
  pose proof (Fib_pos a) as Ha. pose proof (Fib_pos b) as Hb.
  replace (S a) with (a + 1)%nat in Ha by lia.
  replace (S b) with (b + 1)%nat in Hb by lia. nia.
Qed.

Lemma Fib_pos2 (n : nat) : 1 <= Fib (n + 2).
Proof.
  replace (n + 2)%nat with (S (n + 1)) by lia.
  pose proof (Fib_pos (n + 1)). lia.
Qed.

(** ** Products over clusters *)

Lemma open_product_true (cur : nat) (l : list bool) :
  open_product cur (true :: l) = open_product (S cur) l.
Proof. reflexivity. Qed.

Lemma open_product_pos (l : list bool) : forall cur, 1 <= open_product cur l.
Proof.
  induction l as [|[|] l IH]; intros cur.
  - rewrite open_product_nil. apply Fib_pos2.
  - rewrite open_product_true. apply IH.
  - rewrite open_product_false. pose proof (Fib_pos2 cur). pose proof (IH 0%nat).
    nia.
Qed.

(** Closing a cluster early gives a smaller product than letting it run. *)
Lemma open_product_merge (l : list bool) :
  forall a b, Fib (a + 2) * open_product b l < open_product (a + b + 1) l.
Proof.
  induction l as [|[|] l IH]; intros a b.
  - rewrite !open_product_nil.
    replace (a + b + 1 + 2)%nat with (a + b + 3)%nat by lia. apply Fib_mul_lt.
  - rewrite !open_product_true.
    replace (S (a + b + 1)) with (a + S b + 1)%nat by lia. apply IH.
  - rewrite !open_product_false.
    replace (a + b + 1 + 2)%nat with (a + b + 3)%nat by lia.
    pose proof (Fib_mul_lt a b). pose proof (open_product_pos l 0). nia.
Qed.

Lemma open_product_le_Fib (l : list bool) :
  forall cur, open_product cur l <= Fib (cur + length l + 2).
Proof.
  induction l as [|[|] l IH]; intros cur; cbn [length].
  - rewrite open_product_nil, Nat.add_0_r. lia.
  - rewrite open_product_true.
    replace (cur + S (length l) + 2)%nat with (S cur + length l + 2)%nat by lia.
    apply IH.
  - rewrite open_product_false.
    pose proof (IH 0%nat) as H0. cbn [Nat.add] in H0.
    pose proof (Fib_mul_lt cur (length l)) as Hm.
    replace (cur + S (length l) + 2)%nat with (cur + length l + 3)%nat by lia.
    pose proof (Fib_pos2 cur). pose proof (open_product_pos l 0). nia.
Qed.

Lemma length_pair_flags (rest : list byte) :
  forall a, length (pair_flags a rest) = length rest.
Proof. induction rest as [|b rest IH]; intros a; cbn; [reflexivity|now rewrite IH]. Qed.

Lemma cluster_product_open (a : byte) (rest : list byte) :
  cluster_product (a :: rest) = open_product 0 (pair_flags a rest).
Proof. reflexivity. Qed.

Lemma cluster_product_bounds (p : list byte) :
  p <> [] -> 1 <= cluster_product p <= Fib (length p + 1).
Proof.
  destruct p as [|a rest]; [congruence|]. intros _.
  rewrite cluster_product_open. split; [apply open_product_pos|].
  pose proof (open_product_le_Fib (pair_flags a rest) 0) as H.
  rewrite length_pair_flags in H. cbn [Nat.add length] in *.
  now replace (S (length rest + 1)) with (length rest + 2)%nat by lia.
Qed.

(** ** The count and the number of decodings, on every valid input *)

Lemma flags_le_product (l1 : list bool) :
  forall l2 cur,
    flags_le l1 l2 ->
    open_product cur l1 <= open_product cur l2
    /\ (l1 <> l2 -> open_product cur l1 < open_product cur l2).
Proof.
  induction l1 as [|x l1 IH]; intros [|y l2] cur Hle; cbn [flags_le] in Hle;
    try contradiction.
  - split; [lia|congruence].
  - destruct Hle as [Hxy Hle]. destruct x, y.
    + rewrite !open_product_true. destruct (IH l2 (S cur) Hle) as [H1 H2].
      split; [exact H1|]. intros Hne. apply H2. congruence.
    + specialize (Hxy eq_refl). discriminate.
    + rewrite open_product_true, open_product_false.
      destruct (IH l2 0%nat Hle) as [H1 _].
      pose proof (open_product_merge l2 cur 0) as Hm.
      replace (cur + 0 + 1)%nat with (S cur) in Hm by lia.
      pose proof (Fib_pos2 cur). split; [nia|intros _; nia].
    + rewrite !open_product_false. destruct (IH l2 0%nat Hle) as [H1 H2].
      pose proof (Fib_pos2 cur). split; [nia|].
      intros Hne. assert (Hne' : l1 <> l2) by congruence.
      specialize (H2 Hne'). nia.
Qed.

Lemma free_flags_le (rest : list byte) :
  forall a, flags_le (free_flags a rest) (pair_flags a rest).
Proof.
  induction rest as [|b rest IH]; intros a; cbn [free_flags pair_flags flags_le].
  - exact I.
  - split; [|apply IH]. intros H. now apply andb_prop in H.
Qed.

Lemma free_flags_eq (rest : list byte) :
  forall a,
    free_flags a rest = pair_flags a rest <-> zero_free_clusters a rest = true.
Proof.
  induction rest as [|b rest IH]; intros a;
    cbn [free_flags pair_flags zero_free_clusters].
  - now split.
  - rewrite andb_true_iff, <- IH. split.
    + intros [= H1 H2]. split; [|exact H2].
      destruct rest as [|c rest']; [reflexivity|].
      destruct (ambiguous a b), (u8 c =? u8 "0"); cbn in *; congruence.
    + intros [H1 H2]. f_equal; [|exact H2].
      destruct rest as [|c rest']; [apply andb_true_r|].
      destruct (ambiguous a b), (u8 c =? u8 "0"); cbn in *; congruence.
Qed.

(** The number of decodings of a valid input is the product of the
    Fibonacci factors over the clusters of free pairs. *)
Lemma count_decodings_free (n : nat) :
  forall (rest : list byte) (a : byte),
    (length rest <= n)%nat -> 49 <= u8 a <= 57 ->
    forallb is_digit rest = true -> zeros_ok a rest = true ->
    count_decodings (a :: rest) = open_product 0 (free_flags a rest).
Proof.
  induction n as [|n IH]; intros rest a Hlen Ha Hd Hz.
  - destruct rest; [|cbn in Hlen; lia].
    rewrite count_decodings_cons, (proj2 (one_ok_range a) Ha). reflexivity.
  - destruct rest as [|b rest'].
    { rewrite count_decodings_cons, (proj2 (one_ok_range a) Ha). reflexivity. }
    cbn [length] in Hlen. cbn [forallb] in Hd.
    apply andb_prop in Hd as [Hb Hd]. apply is_digit_range in Hb.
    apply zeros_ok_head in Hz as [Hz0 Hz].
    rewrite count_decodings_cons, (proj2 (one_ok_range a) Ha).
    cbn [free_flags].
    destruct (Z.eq_dec (u8 b) 48) as [Hb0|Hb0].
    + rewrite (count_decodings_zero_head b rest' Hb0).
      rewrite (proj2 (two_ok_range a b)) by lia.
      rewrite (bool_iff _ _ (ambiguous_range a b)) by lia. cbn [andb].
      rewrite open_product_false. change (Fib (0 + 2)) with 1.
      destruct rest' as [|c rest'']; [reflexivity|].
      cbn [forallb] in Hd. apply andb_prop in Hd as [Hc Hd].
      apply is_digit_range in Hc. apply zeros_ok_head in Hz as [Hz1 Hz].
      cbn [free_flags].
      rewrite (bool_iff _ _ (ambiguous_range b c)) by lia. cbn [andb].
      rewrite open_product_false. change (Fib (0 + 2)) with 1.
      rewrite (IH rest'' c) by (auto; cbn [length] in Hlen; lia). lia.
    + rewrite (IH rest' b) by (auto; lia).
      destruct (ambiguous a b) eqn:Hab; cbn [andb].
      * apply ambiguous_range in Hab.
        rewrite (proj2 (two_ok_range a b)) by lia.
        destruct rest' as [|c rest'']; [reflexivity|].
        cbn [forallb] in Hd. apply andb_prop in Hd as [Hc Hd].
        apply is_digit_range in Hc. apply zeros_ok_head in Hz as [Hz1 Hz].
        rewrite u8_0.
        destruct (Z.eqb_spec (u8 c) 48) as [Hc0|Hc0]; cbn [negb].
        -- rewrite (count_decodings_zero_head c rest'' Hc0).
           rewrite open_product_false. change (Fib (0 + 2)) with 1. lia.
        -- rewrite (IH rest'' c) by (auto; cbn [length] in Hlen; lia).
           rewrite open_product_true. cbn [free_flags].
           match goal with
           | |- context [open_product 0 (?x :: ?l)] => destruct x
           end.
           ++ rewrite !open_product_true. rewrite (open_product_add _ 0). lia.
           ++ rewrite !open_product_false.
              change (Fib (1 + 2)) with 2. change (Fib (0 + 2)) with 1. lia.
      * rewrite (bool_iff _ _ (two_ok_range a b)).
        -- rewrite open_product_false. change (Fib (0 + 2)) with 1. lia.
        -- intros (_ & _ & H26). apply not_true_iff_false in Hab.
           apply Hab, ambiguous_range. lia.
Qed.

Lemma cluster_product_vs_decodings (p : list byte) :
  valid p = true ->
  count_decodings p <= cluster_product p
  /\ (cluster_product p = count_decodings p
      <-> no_zero_after_ambiguous p = true).
Proof.
  destruct p as [|a rest]; [discriminate|].
  cbn [valid no_zero_after_ambiguous]. intros H.
  apply andb_prop in H as [H Hz]. apply andb_prop in H as [H Hd].
  apply andb_prop in H as [H1 H9]. u8_consts.
  apply Z.leb_le in H1. apply Z.leb_le in H9.
  rewrite (count_decodings_free (length rest) rest a) by (auto; lia).
  rewrite cluster_product_open.
  destruct (flags_le_product _ _ 0%nat (free_flags_le rest a)) as [Hle Hlt].
  split; [exact Hle|]. rewrite <- free_flags_eq. split.
  - intros Heq.
    destruct (list_eq_dec Bool.bool_dec (free_flags a rest) (pair_flags a rest))
      as [E|Hne]; [exact E|].
    specialize (Hlt Hne). lia.
  - intros ->. reflexivity.
Qed.

(** ** Further properties of getPossibleCombinations: the number returned *)

(** X1: on every valid input the call returns at least the number of
    decodings, and exactly that number if and only if no '0' comes directly
    after an ambiguous pair. *)
Theorem X1_never_undercounts (fuel : nat) (st : state) :
  cache_ok st -> valid (input st) = true ->
  Z.of_nat (length (input st)) <= maxInt ->
  (length (input st) <= fuel)%nat ->
  exists v st',
    run fuel st = Ok (v, None, st')
    /\ count_decodings (input st) <= v
    /\ (v = count_decodings (input st)
        <-> no_zero_after_ambiguous (input st) = true).
Proof.
  intros Hok Hv Hlen Hfuel.
  destruct (run_valid fuel st Hok Hv Hlen Hfuel) as (st' & Hrun & _).
  exists (cluster_product (input st)), st'. split; [exact Hrun|].
  apply cluster_product_vs_decodings. exact Hv.
Qed.

Lemma X1_never_undercounts_witness :
  exists v st',
    run 4 (init (B "2120")) = Ok (v, None, st')
    /\ count_decodings (B "2120") <= v
    /\ (v = count_decodings (B "2120")
        <-> no_zero_after_ambiguous (B "2120") = true).
Proof.
  apply (X1_never_undercounts 4 (init (B "2120"))).
  - apply cache_ok_init.
  - reflexivity.
  - vm_compute. discriminate.
  - vm_compute. lia.
Defined.

(** X2: on a non-empty input the number returned is 0 exactly when an
    error is returned; a count is at least 1. *)
Theorem X2_zero_iff_error (fuel : nat) (st : state) :
  cache_ok st -> input st <> [] ->
  Z.of_nat (length (input st)) <= maxInt ->
  (length (input st) <= fuel)%nat ->
  exists v e st',
    run fuel st = Ok (v, e, st')
    /\ (e = None -> 1 <= v)
    /\ (v = 0 <-> e <> None).
Proof.
  intros Hok Hne Hlen Hfuel.
  destruct (run_refines fuel st Hok Hne Hlen Hfuel)
    as (v & e & st' & Hrun & Hpure & _ & _).
  exists v, e, st'. split; [exact Hrun|].
  destruct (count_pure_error _ _ _ Hpure) as [He Hv0].
  assert (Hpos : e = None -> 1 <= v).
  { intros ->. symmetry in He.
    assert (Hval : valid (input st) = true) by (apply checks_valid; auto).
    rewrite (count_pure_valid _ Hval) in Hpure. injection Hpure as <-.
    now apply cluster_product_bounds. }
  split; [exact Hpos|]. split.
  - intros -> ->. specialize (Hpos eq_refl). lia.
  - exact Hv0.
Qed.

Lemma X2_zero_iff_error_witness :
  exists v e st',
    run 2 (init (B "30")) = Ok (v, e, st')
    /\ (e = None -> 1 <= v)
    /\ (v = 0 <-> e <> None).
Proof.
  apply (X2_zero_iff_error 2 (init (B "30"))).
  - apply cache_ok_init.
  - discriminate.
  - vm_compute. discriminate.
  - vm_compute. lia.
Defined.

(** X3: on a valid input of n bytes the number returned is at most F(n+1),
    the number returned on n bytes '1'. *)
Theorem X3_count_at_most_Fib (fuel : nat) (st : state) :
  cache_ok st -> valid (input st) = true ->
  Z.of_nat (length (input st)) <= maxInt ->
  (length (input st) <= fuel)%nat ->
  exists v st',
    run fuel st = Ok (v, None, st')
    /\ v <= Fib (length (input st) + 1).
Proof.
  intros Hok Hv Hlen Hfuel.
  destruct (run_valid fuel st Hok Hv Hlen Hfuel) as (st' & Hrun & _).
  exists (cluster_product (input st)), st'. split; [exact Hrun|].
  apply cluster_product_bounds. destruct (input st); [discriminate|congruence].
Qed.

Lemma X3_count_at_most_Fib_witness :
  exists v st',
    run 5 (init (B "12711")) = Ok (v, None, st') /\ v <= Fib (5 + 1).
Proof.
  apply (X3_count_at_most_Fib 5 (init (B "12711"))).
  - apply cache_ok_init.
  - reflexivity.
  - vm_compute. discriminate.
  - vm_compute. lia.
Defined.

(** ** Further properties of fib *)

(** X4: a call of [fib(n)] that returns leaves the table with exactly
    max(len before, n+1) entries, [maxFib] equal to that length, and returns
    the pointer stored at index n: the table is extended up to index n and
    no further. *)
Theorem X4_fib_extends_to_n (fuel : nat) (n : Z) (st st' : state) (r : ptr) :
  cache_ok st -> 0 <= n < 2 ^ 64 -> fib fuel n st = Ok (r, st') ->
  Z.of_nat (length (f st')) = Z.max (Z.of_nat (length (f st))) (n + 1)
  /\ maxFib st' = Z.of_nat (length (f st'))
  /\ nth_error (f st') (Z.to_nat n) = Some r.
Proof.
  intros Hok Hn Hrun.
  destruct (fib_Ok_inv fuel n st st' r Hok Hn Hrun)
    as (Hok' & _ & _ & Hmax & _ & Hr & _).
  destruct Hok as (Hl & _). destruct Hok' as (Hl' & _).
  split; [lia|]. split; [exact Hl'|exact Hr].
Qed.

Lemma X4_fib_extends_to_n_witness :
  let st' := mkState [] [0; 1; 1; 2] [0; 1; 2; 3]%nat 4 in
  Z.of_nat (length (f st')) = Z.max (Z.of_nat (length (f (init [])))) (3 + 1)
  /\ maxFib st' = Z.of_nat (length (f st'))
  /\ nth_error (f st') (Z.to_nat 3) = Some 3%nat.
Proof.
  intros st'. apply (X4_fib_extends_to_n 2 3 (init []) st' 3%nat).
  - apply cache_ok_init.
  - lia.
  - reflexivity.
Defined.

(** X5: once [fib(n)] has returned, a call [fib(m)] with m <= n is a
    lookup: it runs no iteration of the loop (it returns with no fuel),
    leaves the store as it is and returns F(m); for m = n it returns the
    same pointer again. *)
Theorem X5_fib_memoized (fuel : nat) (n m : Z) (st st1 : state) (r : ptr) :
  cache_ok st -> 0 <= m <= n -> n < 2 ^ 64 ->
  fib fuel n st = Ok (r, st1) ->
  exists r', fib 0 m st1 = Ok (r', st1)
             /\ deref r' st1 = Ok (Fib (Z.to_nat m))
             /\ (m = n -> r' = r).
Proof.
  intros Hok Hm Hn Hrun.
  destruct (fib_Ok_inv fuel n st st1 r Hok ltac:(lia) Hrun)
    as (Hok1 & _ & Hn1 & Hmax & _ & Hr & _).
  assert (Hlt : m < maxFib st1) by lia.
  assert (Hm' : 0 <= m + 1 < 2 ^ 64 + 1) by lia.
  destruct (fib_returns 0 m st1 Hok1 ltac:(lia) ltac:(lia) ltac:(lia))
    as (r' & st2 & Hrun2).
  destruct (fib_Ok_inv 0 m st1 st2 r' Hok1 ltac:(lia) Hrun2)
    as (_ & _ & _ & _ & Hsame & Hr' & Hd).
  rewrite (Hsame Hlt) in *. exists r'. split; [exact Hrun2|].
  split; [exact Hd|]. intros ->. congruence.
Qed.

Lemma X5_fib_memoized_witness :
  let st1 := mkState [] [0; 1; 1; 2] [0; 1; 2; 3]%nat 4 in
  exists r', fib 0 2 st1 = Ok (r', st1)
             /\ deref r' st1 = Ok (Fib (Z.to_nat 2))
             /\ (2 = 3 -> r' = 3%nat).
Proof.
  intros st1. apply (X5_fib_memoized 2 3 2 (init []) st1 3%nat).
  - apply cache_ok_init.
  - lia.
  - lia.
  - reflexivity.
Defined.

(** ** Further properties of getPossibleCombinations: the store *)

Lemma assign_same (x : ptr) (v : Z) (st st' : state) :
  assign x v st = Ok st' ->
  maxFib st' = maxFib st /\ f st' = f st /\ input st' = input st.
Proof.
  unfold assign. destruct (x <? length (ints st))%nat; [|discriminate].
  intros [= <-]. now repeat split.
Qed.

(** What a flush that returns has done. *)
Lemma flush_inv (fuel : nat) (cs : Z) (x : ptr) (acc : Z) (st st' : state) :
  holds st x acc -> flush fuel cs x st = Ok st' ->
  (exists acc', holds st' x acc') /\ frame x st st'
  /\ maxFib st' = Z.max (maxFib st) (wrap64 (cs + 2) + 1).
Proof.
  intros Hh Hrun. unfold flush in Hrun.
  destruct (fib fuel (wrap64 (cs + 2)) st) as [[y st1]| |] eqn:E;
    cbn [bind] in Hrun; try discriminate.
  destruct (fib_Ok_inv _ _ _ _ _ (proj1 Hh) (wrap64_range _) E)
    as (Hok1 & Hext & _ & Hmax & _).
  pose proof (holds_extends _ _ _ _ Hh Hext Hok1) as Hh1.
  unfold Mul, deref in Hrun. pose proof Hh1 as (_ & Hx1 & _).
  rewrite Hx1 in Hrun. cbn [bind] in Hrun.
  destruct (nth_error (ints st1) y) as [vy|]; cbn [bind] in Hrun;
    try discriminate.
  destruct (holds_assign st1 x acc (acc * vy) Hh1) as (st2 & Hasg & Hh2 & Hfr).
  rewrite Hasg in Hrun. cbn [bind] in Hrun. injection Hrun as <-.
  split; [now exists (acc * vy)|]. split.
  - eapply frame_trans; [apply extends_frame; exact Hext|exact Hfr].
  - destruct (assign_same _ _ _ _ Hasg) as (-> & _). exact Hmax.
Qed.

(** What a scan that returns has done to the store: it has written to [x]
    and to objects it allocated, and what it returns is [x] or a new
    object, never an entry of the table. *)
Lemma scan_inv (fuel : nat) (rest : list byte) :
  forall (i : Z) (a : byte) (cs : Z) (x : ptr) (acc : Z) (st st' : state)
         (r : ptr) (e : option error),
    holds st x acc -> scan fuel rest i a cs x st = Ok (r, e, st') ->
    cache_ok st' /\ frame x st st' /\ ~ In r (f st')
    /\ (r = x \/ (length (ints st) <= r)%nat).
Proof.
  assert (Herr : forall st z st1,
             cache_ok st -> NewInt 0 st = (z, st1) ->
             forall x, cache_ok st1 /\ frame x st st1 /\ ~ In z (f st1)
                       /\ (z = x \/ (length (ints st) <= z)%nat)).
  { intros st z st1 Hok EN x.
    destruct (NewInt_extends 0 st Hok) as (Hok1 & Hext & _).
    rewrite EN in Hok1, Hext. cbn [fst snd] in *.
    unfold NewInt in EN. injection EN as <- <-.
    split; [exact Hok1|]. split; [now apply extends_frame|].
    split; [|right; lia].
    cbn [set_ints f]. intros Hin.
    apply (cache_ok_ptr_bound _ _ Hok) in Hin. lia. }
  induction rest as [|b rest IH]; intros i a cs x acc st st' r e Hh Hrun;
    cbn [scan] in Hrun.
  - destruct (cs >? 0).
    + destruct (flush fuel cs x st) as [st1| |] eqn:E; cbn [bind] in Hrun;
        try discriminate.
      injection Hrun as <- _ <-.
      destruct (flush_inv _ _ _ _ _ _ Hh E) as ([acc' Hh'] & Hfr & _).
      split; [apply Hh'|]. split; [exact Hfr|]. split; [|now left].
      intros Hin. now apply (proj2 (proj2 Hh') x).
    + injection Hrun as <- _ <-.
      split; [apply Hh|]. split; [apply frame_refl|]. split; [|now left].
      intros Hin. now apply (proj2 (proj2 Hh) x).
  - destruct (not_digit b); [|destruct (bad_zero a b)].
    + destruct (NewInt 0 st) as [z st1] eqn:EN. injection Hrun as <- _ <-.
      now apply (Herr st z st1 (proj1 Hh) EN).
    + destruct (NewInt 0 st) as [z st1] eqn:EN. injection Hrun as <- _ <-.
      now apply (Herr st z st1 (proj1 Hh) EN).
    + assert (Hstep : forall st1 cs' acc',
                 holds st1 x acc' -> frame x st st1 ->
                 scan fuel rest (i + 1) b cs' x st1 = Ok (r, e, st') ->
                 cache_ok st' /\ frame x st st' /\ ~ In r (f st')
                 /\ (r = x \/ (length (ints st) <= r)%nat)).
      { intros st1 cs' acc' Hh1 Hfr1 Hrun1.
        destruct (IH _ _ _ _ _ _ _ _ _ Hh1 Hrun1) as (Hok' & Hfr' & Hnin & Hr).
        split; [exact Hok'|]. split; [eapply frame_trans; eauto|].
        split; [exact Hnin|]. destruct Hr as [Hr|Hr]; [now left|right].
        destruct Hfr1 as (_ & _ & Hl & _). lia. }
      destruct (in_cluster a b);
        [eapply Hstep; [exact Hh|apply frame_refl|exact Hrun]|].
      destruct (cs >? 0);
        [|eapply Hstep; [exact Hh|apply frame_refl|exact Hrun]].
      destruct (flush fuel cs x st) as [st1| |] eqn:E; cbn [bind] in Hrun;
        try discriminate.
      destruct (flush_inv _ _ _ _ _ _ Hh E) as ([acc' Hh'] & Hfr & _).
      eapply Hstep; [exact Hh'|exact Hfr|exact Hrun].
Qed.

Lemma call_frame (fuel : nat) (st st' : state) (r : ptr)
  (e : option error) :
  cache_ok st -> getPossibleCombinations fuel st = Ok (r, e, st') ->
  (forall q, (q < length (ints st))%nat ->
             nth_error (ints st') q = nth_error (ints st) q)
  /\ (exists lf, f st' = f st ++ lf)
  /\ (length (ints st) <= r)%nat
  /\ ~ In r (f st').
Proof.
  intros Hok Hrun. unfold getPossibleCombinations in Hrun.
  pose proof (holds_NewInt 1 st Hok) as Hh.
  destruct (NewInt_extends 1 st Hok) as (_ & Hext & _).
  destruct (NewInt 1 st) as [x st1] eqn:EN. cbn [fst snd] in Hh, Hext.
  assert (Hx : x = length (ints st)) by (unfold NewInt in EN; congruence).
  assert (Hl1 : (length (ints st) <= length (ints st1))%nat).
  { destruct Hext as [_ (li & lf & -> & _)]. rewrite length_app. lia. }
  assert (Hfin : forall z st2,
             NewInt 0 st1 = (z, st2) ->
             (forall q, (q < length (ints st))%nat ->
                        nth_error (ints st2) q = nth_error (ints st) q)
             /\ (exists lf, f st2 = f st ++ lf)
             /\ (length (ints st) <= z)%nat /\ ~ In z (f st2)).
  { intros z st2 EN2.
    destruct (NewInt_extends 0 st1 (proj1 Hh)) as (_ & Hext2 & _).
    rewrite EN2 in Hext2. cbn [snd] in Hext2.
    destruct (frame_preserves st st1 st2 Hext
                (extends_frame _ _ _ Hext2)) as (_ & Hf & Hq).
    split; [exact Hq|]. split; [exact Hf|].
    unfold NewInt in EN2. injection EN2 as <- <-. split; [lia|].
    cbn [set_ints f]. intros Hin.
    apply (cache_ok_ptr_bound _ _ (proj1 Hh)) in Hin. lia. }
  destruct (index (input st1) 0) as [a| |]; cbn [bind] in Hrun;
    try discriminate.
  destruct (u8 a =? 48); [|destruct ((u8 a <? 49) || (u8 a >? 57))].
  - destruct (NewInt 0 st1) as [z st2] eqn:EN2. injection Hrun as <- _ <-.
    now apply Hfin.
  - destruct (NewInt 0 st1) as [z st2] eqn:EN2. injection Hrun as <- _ <-.
    now apply Hfin.
  - destruct (slice_from1 (input st1)) as [rest| |]; cbn [bind] in Hrun;
      try discriminate.
    destruct (scan_inv _ _ _ _ _ _ _ _ _ _ _ Hh Hrun)
      as (_ & Hfr & Hnin & Hr).
    rewrite Hx in Hfr.
    destruct (frame_preserves st st1 st' Hext Hfr) as (_ & Hf & Hq).
    split; [exact Hq|]. split; [exact Hf|]. split; [|exact Hnin].
    destruct Hr as [->|Hr]; lia.
Qed.

(** X6: a call that returns, on any input and in any state of the cache,
    has written only to big.Int objects it allocated itself: every object
    that existed before the call (the entries of the cache, the results of
    earlier calls) has the value it had, the table has only been appended
    to, and the pointer returned is a new object that is no entry of the
    table. *)
Theorem X6_call_writes_own_objects (fuel : nat) (st st' : state) (r : ptr)
  (e : option error) :
  cache_ok st -> getPossibleCombinations fuel st = Ok (r, e, st') ->
  (forall q, (q < length (ints st))%nat ->
             nth_error (ints st') q = nth_error (ints st) q)
  /\ (exists lf, f st' = f st ++ lf)
  /\ (length (ints st) <= r)%nat
  /\ ~ In r (f st').
Proof. apply call_frame. Qed.

Lemma X6_call_writes_own_objects_witness :
  let st' := mkState (B "226") [0; 1; 3; 1; 2; 3] [0; 1; 3; 4; 5]%nat 5 in
  (forall q, (q < length (ints (init (B "226"))))%nat ->
             nth_error (ints st') q = nth_error (ints (init (B "226"))) q)
  /\ (exists lf, f st' = f (init (B "226")) ++ lf)
  /\ (length (ints (init (B "226"))) <= 2)%nat
  /\ ~ In 2%nat (f st').
Proof.
  intros st'.
  apply (X6_call_writes_own_objects 3 (init (B "226")) st' 2%nat None).
  - apply cache_ok_init.
  - reflexivity.
Defined.

(** ** Further properties of getPossibleCombinations: growth of the cache *)

Lemma scan_frontier (fuel : nat) (rest : list byte) :
  forall (i : Z) (a : byte) (cs : nat) (x : ptr) (acc : Z) (st st' : state)
         (r : ptr) (e : option error),
    holds st x acc -> Z.of_nat (cs + length rest) + 3 < 2 ^ 64 ->
    scan fuel rest i a (Z.of_nat cs) x st = Ok (r, e, st') ->
    maxFib st' = scan_front rest a cs (maxFib st).
Proof.
  assert (Hflush : forall cs x acc st st1,
             holds st x acc -> Z.of_nat cs + 3 < 2 ^ 64 ->
             flush fuel (Z.of_nat cs) x st = Ok st1 ->
             (0 <? cs)%nat = true ->
             (exists acc', holds st1 x acc')
             /\ maxFib st1 = front_flush cs (maxFib st)).
  { intros cs x acc st st1 Hh Hcs E Hpos.
    destruct (flush_inv _ _ _ _ _ _ Hh E) as (Hh' & _ & Hm).
    split; [exact Hh'|]. unfold front_flush. rewrite Hpos, Hm.
    rewrite wrap64_small by lia. f_equal. lia. }
  induction rest as [|b rest IH]; intros i a cs x acc st st' r e Hh Hcs Hrun;
    cbn [scan scan_front length] in *.
  - rewrite gtb_of_nat in Hrun. destruct (0 <? cs)%nat eqn:Hpos.
    + destruct (flush fuel (Z.of_nat cs) x st) as [st1| |] eqn:E;
        cbn [bind] in Hrun; try discriminate.
      injection Hrun as _ _ <-.
      now destruct (Hflush cs x acc st st1 Hh ltac:(lia) E Hpos).
    + injection Hrun as _ _ <-. unfold front_flush. now rewrite Hpos.
  - destruct (not_digit b); [|destruct (bad_zero a b)].
    + unfold NewInt in Hrun. now injection Hrun as _ _ <-.
    + unfold NewInt in Hrun. now injection Hrun as _ _ <-.
    + destruct (in_cluster a b).
      * rewrite wrap64_small in Hrun by lia.
        replace (Z.of_nat cs + 1) with (Z.of_nat (S cs)) in Hrun by lia.
        eapply IH; [exact Hh| |exact Hrun]. lia.
      * rewrite gtb_of_nat in Hrun. destruct (0 <? cs)%nat eqn:Hpos.
        -- destruct (flush fuel (Z.of_nat cs) x st) as [st1| |] eqn:E;
             cbn [bind] in Hrun; try discriminate.
           destruct (Hflush cs x acc st st1 Hh ltac:(lia) E Hpos)
             as ([acc' Hh'] & <-).
           change 0 with (Z.of_nat 0) in Hrun.
           eapply IH; [exact Hh'| |exact Hrun]. cbn [Nat.add]. lia.
        -- apply Nat.ltb_ge in Hpos. assert (cs = 0%nat) by lia. subst cs.
           unfold front_flush. cbn [Nat.ltb Nat.leb].
           eapply IH; [exact Hh| |exact Hrun]. cbn [Nat.add]. lia.
Qed.

Lemma front_flush_bounds (cs : nat) (m : Z) :
  m <= front_flush cs m <= Z.max m (Z.of_nat cs + 3).
Proof. unfold front_flush. destruct (0 <? cs)%nat; lia. Qed.

Lemma scan_front_bounds (rest : list byte) :
  forall (a : byte) (cs : nat) (m : Z),
    m <= scan_front rest a cs m
    <= Z.max m (Z.of_nat (cs + length rest) + 3).
Proof.
  induction rest as [|b rest IH]; intros a cs m; cbn [scan_front length].
  - pose proof (front_flush_bounds cs m). lia.
  - destruct (not_digit b); [lia|]. destruct (bad_zero a b); [lia|].
    destruct (in_cluster a b).
    + specialize (IH b (S cs) m). lia.
    + specialize (IH b 0%nat (front_flush cs m)).
      pose proof (front_flush_bounds cs m). lia.
Qed.

Lemma front_flush_compose (cs L : nat) (m : Z) :
  front_flush L (front_flush cs m) = front_flush (Nat.max cs L) m.
Proof.
  unfold front_flush.
  destruct (Nat.ltb_spec 0 L), (Nat.ltb_spec 0 cs), (Nat.ltb_spec 0 (Nat.max cs L));
    lia.
Qed.

Lemma list_max_runs_nil (cs : nat) :
  list_max (if (0 <? cs)%nat then [cs] else []) = cs.
Proof.
  destruct (Nat.ltb_spec 0 cs); cbn; lia.
Qed.

(** On a valid input the table ends as long as the longest cluster
    demands. *)
Lemma scan_front_valid (rest : list byte) :
  forall (a : byte) (cs : nat) (m : Z),
    forallb is_digit rest = true -> zeros_ok a rest = true ->
    scan_front rest a cs m
    = front_flush (list_max (runs cs (pair_flags a rest))) m.
Proof.
  induction rest as [|b rest IH]; intros a cs m Hd Hz;
    cbn [scan_front pair_flags runs forallb zeros_ok] in *.
  - now rewrite list_max_runs_nil.
  - apply andb_prop in Hd as [Hb Hd]. apply andb_prop in Hz as [Hz0 Hz].
    rewrite not_digit_spec, Hb. cbn [negb].
    rewrite bad_zero_spec.
    replace ((u8 b =? u8 "0") && negb (u8 a =? u8 "1") && negb (u8 a =? u8 "2"))
      with false
      by (revert Hz0; destruct (u8 b =? u8 "0"), (u8 a =? u8 "1"),
            (u8 a =? u8 "2"); cbn; congruence).
    rewrite (in_cluster_spec a b Hb).
    destruct (ambiguous a b).
    + now apply IH.
    + rewrite IH by assumption.
      rewrite list_max_app, list_max_runs_nil. apply front_flush_compose.
Qed.

Lemma runs_pos (l : list bool) :
  forall cur, Forall (fun c => (1 <= c)%nat) (runs cur l).
Proof.
  induction l as [|[|] l IH]; intros cur; cbn [runs].
  - destruct (Nat.ltb_spec 0 cur); repeat constructor; lia.
  - apply IH.
  - apply Forall_app. split; [|apply IH].
    destruct (Nat.ltb_spec 0 cur); repeat constructor; lia.
Qed.

(** How a call that returns has come to the scan. *)
Lemma getPossibleCombinations_inv (fuel : nat) (st st' : state) (r : ptr)
  (e : option error) :
  cache_ok st -> getPossibleCombinations fuel st = Ok (r, e, st') ->
  exists a rest x st1,
    input st = a :: rest /\ holds st1 x 1 /\ maxFib st1 = maxFib st
    /\ f st1 = f st
    /\ ((start_check a <> None /\ maxFib st' = maxFib st /\ f st' = f st)
        \/ (start_check a = None
            /\ scan fuel rest 0 a 0 x st1 = Ok (r, e, st'))).
Proof.
  intros Hok Hrun. unfold getPossibleCombinations in Hrun.
  pose proof (holds_NewInt 1 st Hok) as Hh.
  assert (EN : NewInt 1 st = (fst (NewInt 1 st), snd (NewInt 1 st)))
    by now destruct (NewInt 1 st).
  rewrite EN in Hrun. clear EN.
  set (x := fst (NewInt 1 st)) in *. set (st1 := snd (NewInt 1 st)) in *.
  assert (Hin : input st1 = input st) by reflexivity.
  assert (Hm : maxFib st1 = maxFib st) by reflexivity.
  assert (Hf : f st1 = f st) by reflexivity.
  clearbody x st1. rewrite Hin in Hrun.
  destruct (input st) as [|a rest] eqn:Ein; [discriminate|].
  assert (Hidx : index (a :: rest) 0 = Ok a)
    by (apply (index_nth (a :: rest) 0 a); reflexivity).
  rewrite Hidx in Hrun. cbn [bind slice_from1] in Hrun.
  exists a, rest, x, st1.
  split; [reflexivity|]. split; [exact Hh|]. split; [exact Hm|].
  split; [exact Hf|]. rewrite start_check_spec.
  destruct (u8 a =? 48); [|destruct ((u8 a <? 49) || (u8 a >? 57))].
  - left. unfold NewInt in Hrun. injection Hrun as _ _ <-.
    cbn [set_ints maxFib f]. repeat split; auto. discriminate.
  - left. unfold NewInt in Hrun. injection Hrun as _ _ <-.
    cbn [set_ints maxFib f]. repeat split; auto. discriminate.
  - right. split; [reflexivity|exact Hrun].
Qed.

Lemma prefix_same_length {A : Type} (l lf : list A) :
  length (l ++ lf) = length l -> l ++ lf = l.
Proof.
  rewrite length_app. intros H. destruct lf; [apply app_nil_r|cbn in H; lia].
Qed.

(** X7: a call that returns on an input of n bytes, valid or not, leaves
    the table no shorter than it was and with at most max(len before, n+2)
    entries. *)
Theorem X7_cache_at_most_input_length (fuel : nat) (st st' : state) (r : ptr)
  (e : option error) :
  cache_ok st -> Z.of_nat (length (input st)) <= maxInt ->
  getPossibleCombinations fuel st = Ok (r, e, st') ->
  maxFib st' = Z.of_nat (length (f st'))
  /\ Z.of_nat (length (f st)) <= Z.of_nat (length (f st'))
     <= Z.max (Z.of_nat (length (f st))) (Z.of_nat (length (input st)) + 2).
Proof.
  intros Hok Hlen Hrun. unfold maxInt in Hlen.
  pose proof (getPossibleCombinations_keeps _ _ _ _ _ Hok Hrun) as Hok'.
  destruct Hok' as (Hl' & _). pose proof Hok as (Hl & _).
  split; [exact Hl'|]. rewrite <- Hl', <- Hl.
  destruct (getPossibleCombinations_inv _ _ _ _ _ Hok Hrun)
    as (a & rest & x & st1 & Ein & Hh & Hm & _ & [(_ & Hs & _)|(_ & Hscan)]).
  - lia.
  - rewrite Ein in *. cbn [length] in *.
    assert (Hb0 : Z.of_nat (0 + length rest) + 3 < 2 ^ 64)
      by (cbn [Nat.add]; lia).
    rewrite (scan_frontier fuel rest 0 a 0%nat x 1 st1 st' r e Hh Hb0 Hscan), Hm.
    pose proof (scan_front_bounds rest a 0 (maxFib st)) as Hb.
    cbn [Nat.add] in Hb. lia.
Qed.

Lemma X7_cache_at_most_input_length_witness :
  let st' := mkState (B "226") [0; 1; 3; 1; 2; 3] [0; 1; 3; 4; 5]%nat 5 in
  maxFib st' = Z.of_nat (length (f st'))
  /\ Z.of_nat (length (f (init (B "226")))) <= Z.of_nat (length (f st'))
     <= Z.max (Z.of_nat (length (f (init (B "226")))))
              (Z.of_nat (length (input (init (B "226")))) + 2).
Proof.
  intros st'.
  apply (X7_cache_at_most_input_length 3 (init (B "226")) st' 2%nat None).
  - apply cache_ok_init.
  - vm_compute. discriminate.
  - reflexivity.
Defined.

(** X8: a call that returns on a valid input leaves the table untouched
    when the input has no ambiguous pair, and otherwise with
    max(len before, longest cluster + 3) entries: [fib] is asked for index
    at most longest cluster + 2. *)
Theorem X8_cache_grows_to_longest_cluster (fuel : nat) (st st' : state)
  (r : ptr) (e : option error) :
  cache_ok st -> valid (input st) = true ->
  Z.of_nat (length (input st)) <= maxInt ->
  getPossibleCombinations fuel st = Ok (r, e, st') ->
  (clusters (input st) = [] -> f st' = f st)
  /\ (clusters (input st) <> [] ->
      Z.of_nat (length (f st'))
      = Z.max (Z.of_nat (length (f st)))
              (Z.of_nat (list_max (clusters (input st))) + 3)).
Proof.
  intros Hok Hv Hlen Hrun. unfold maxInt in Hlen.
  pose proof (getPossibleCombinations_keeps _ _ _ _ _ Hok Hrun) as Hok'.
  destruct Hok' as (Hl' & _). pose proof Hok as (Hl & _).
  destruct (call_frame fuel st st' r e Hok Hrun) as (_ & [lf Hf] & _).
  destruct (getPossibleCombinations_inv _ _ _ _ _ Hok Hrun)
    as (a & rest & x & st1 & Ein & Hh & Hm & _ & [(Hs & _)|(_ & Hscan)]).
  - exfalso. apply Hs. rewrite Ein in Hv.
    assert (Hc : first_error (checks (a :: rest)) = None)
      by (apply checks_valid; exact Hv).
    cbn [checks first_error] in Hc. now destruct (start_check a).
  - rewrite Ein in *. cbn [length valid clusters] in *.
    apply andb_prop in Hv as [Hv Hz]. apply andb_prop in Hv as [_ Hd].
    assert (Hb0 : Z.of_nat (0 + length rest) + 3 < 2 ^ 64)
      by (cbn [Nat.add]; lia).
    pose proof (scan_frontier fuel rest 0 a 0%nat x 1 st1 st' r e Hh Hb0 Hscan)
      as Hfront.
    rewrite (scan_front_valid rest a 0 _ Hd Hz), Hm in Hfront.
    unfold front_flush in Hfront.
    assert (Hpos : Forall (fun c => (1 <= c)%nat) (runs 0 (pair_flags a rest))).
    { apply runs_pos. }
    destruct (runs 0 (pair_flags a rest)) as [|c l] eqn:Er.
    + split; [|congruence]. intros _. cbn in Hfront.
      rewrite Hf. apply prefix_same_length. rewrite <- Hf. lia.
    + split; [discriminate|]. intros _.
      assert (Hc : (1 <= list_max (c :: l))%nat).
      { apply Forall_inv in Hpos. cbn [list_max fold_right]. lia. }
      replace (0 <? list_max (c :: l))%nat with true in Hfront
        by (symmetry; apply Nat.ltb_lt; lia).
      lia.
Qed.

Lemma X8_cache_grows_to_longest_cluster_witness :
  let st' := mkState (B "226") [0; 1; 3; 1; 2; 3] [0; 1; 3; 4; 5]%nat 5 in
  (clusters (B "226") = [] -> f st' = f (init (B "226")))
  /\ (clusters (B "226") <> [] ->
      Z.of_nat (length (f st'))
      = Z.max (Z.of_nat (length (f (init (B "226")))))
              (Z.of_nat (list_max (clusters (B "226"))) + 3)).
Proof.
  intros st'.
  apply (X8_cache_grows_to_longest_cluster 3 (init (B "226")) st' 2%nat None).
  - apply cache_ok_init.
  - reflexivity.
  - vm_compute. discriminate.
  - reflexivity.
Defined.

(** ** Further properties of getPossibleCombinations: what an error tells *)

Lemma start_check_inv (a : byte) (err : error) :
  start_check a = Some err ->
  (err = ErrStartsWithZero /\ a = "0"%byte)
  \/ (err = ErrStartsWithNonDigit /\ is_digit a = false).
Proof.
  unfold start_check. destruct (Z.eqb_spec (u8 a) (u8 "0")) as [E|E].
  - intros [= <-]. left. split; [reflexivity|now apply u8_inj].
  - destruct (is_digit a); cbn [negb]; [discriminate|].
    intros [= <-]. now right.
Qed.

Lemma start_check_None (a : byte) : start_check a = None -> is_digit a = true.
Proof.
  unfold start_check. destruct (u8 a =? u8 "0"); [discriminate|].
  now destruct (is_digit a).
Qed.

Lemma pair_check_inv (a b : byte) (i : Z) (err : error) :
  pair_check a b i = Some err ->
  (err = ErrNonDigitAt i /\ is_digit b = false)
  \/ (err = ErrZeroAfter a i /\ b = "0"%byte /\ a <> "1"%byte /\ a <> "2"%byte).
Proof.
  unfold pair_check. destruct (is_digit b); cbn [negb].
  2:{ intros [= <-]. now left. }
  destruct (Z.eqb_spec (u8 b) (u8 "0")) as [Eb|Eb]; cbn [andb]; [|discriminate].
  destruct (Z.eqb_spec (u8 a) (u8 "1")) as [E1|E1]; cbn [negb andb];
    [discriminate|].
  destruct (Z.eqb_spec (u8 a) (u8 "2")) as [E2|E2]; cbn [negb];
    [discriminate|].
  intros [= <-]. right. split; [reflexivity|]. split; [now apply u8_inj|].
  split; congruence.
Qed.

Lemma pair_check_None (a b : byte) (i : Z) :
  pair_check a b i = None -> is_digit b = true.
Proof. unfold pair_check. now destruct (is_digit b). Qed.

(** X9: what a caller learns from an error. A leading-zero error means
    the first byte is '0'; a non-digit-start error that it is no digit.
    The position i of the other two errors is in range, 0 <= i and
    i + 1 < len(p), and p[i+1] is the offending byte: a non-digit, or a
    '0' whose predecessor p[i] is the byte the error carries, a digit
    other than '1' and '2'. *)
Theorem X9_error_points_at_offender (fuel : nat) (st st' : state) (v : Z)
  (err : error) :
  cache_ok st -> input st <> [] ->
  Z.of_nat (length (input st)) <= maxInt ->
  (length (input st) <= fuel)%nat ->
  run fuel st = Ok (v, Some err, st') ->
  match err with
  | ErrStartsWithZero => nth_error (input st) 0 = Some "0"%byte
  | ErrStartsWithNonDigit =>
      exists a, nth_error (input st) 0 = Some a /\ is_digit a = false
  | ErrNonDigitAt i =>
      0 <= i /\ i + 1 < Z.of_nat (length (input st))
      /\ exists b, nth_error (input st) (Z.to_nat i + 1) = Some b
                   /\ is_digit b = false
  | ErrZeroAfter a i =>
      0 <= i /\ i + 1 < Z.of_nat (length (input st))
      /\ nth_error (input st) (Z.to_nat i) = Some a
      /\ nth_error (input st) (Z.to_nat i + 1) = Some "0"%byte
      /\ is_digit a = true /\ a <> "1"%byte /\ a <> "2"%byte
  end.
Proof.
  intros Hok Hne Hlen Hfuel Hrun.
  destruct (run_refines fuel st Hok Hne Hlen Hfuel)
    as (v' & e' & st'' & Hrun' & Hpure & _ & _).
  rewrite Hrun in Hrun'. injection Hrun' as <- <- <-.
  destruct (count_pure_error _ _ _ Hpure) as [He _]. symmetry in He.
  apply first_error_Some in He as (k & Hk & Hbefore).
  rewrite nth_error_checks in Hk. destruct k as [|j].
  - destruct (nth_error (input st) 0) as [a|] eqn:E0; [|discriminate].
    cbn [option_map] in Hk. injection Hk as Hk.
    destruct (start_check_inv a err Hk) as [[-> ->]|[-> Hd]].
    + reflexivity.
    + now exists a.
  - destruct (nth_error (input st) j) as [a|] eqn:Ea; [|discriminate].
    destruct (nth_error (input st) (S j)) as [b|] eqn:Eb; [|discriminate].
    injection Hk as Hk.
    assert (Hj : (S j < length (input st))%nat)
      by (apply nth_error_Some; congruence).
    assert (Hda : is_digit a = true).
    { specialize (Hbefore j ltac:(lia)). rewrite nth_error_checks in Hbefore.
      destruct j as [|j'].
      - rewrite Ea in Hbefore. cbn [option_map] in Hbefore.
        injection Hbefore as Hb0. now apply start_check_None.
      - destruct (nth_error (input st) j') as [a'|]; [|discriminate].
        rewrite Ea in Hbefore. injection Hbefore as Hb0.
        now apply pair_check_None in Hb0. }
    destruct (pair_check_inv a b _ err Hk) as [[-> Hd]|(-> & -> & H1 & H2)].
    + rewrite Nat2Z.id. split; [lia|]. split; [lia|]. exists b.
      replace (j + 1)%nat with (S j) by lia. now split.
    + rewrite Nat2Z.id. replace (j + 1)%nat with (S j) by lia.
      repeat split; auto; lia.
Qed.

Lemma X9_error_points_at_offender_witness :
  0 <= 1 /\ 1 + 1 < Z.of_nat (length (input (init (B "1300"))))
  /\ nth_error (input (init (B "1300"))) (Z.to_nat 1) = Some "3"%byte
  /\ nth_error (input (init (B "1300"))) (Z.to_nat 1 + 1) = Some "0"%byte
  /\ is_digit "3" = true /\ "3"%byte <> "1"%byte /\ "3"%byte <> "2"%byte.
Proof.
  apply (X9_error_points_at_offender 4 (init (B "1300"))
           (mkState (B "1300") [0; 1; 1; 0] [0; 1]%nat 2) 0
           (ErrZeroAfter "3" 1)).
  - apply cache_ok_init.
  - discriminate.
  - vm_compute. discriminate.
  - vm_compute. lia.
  - reflexivity.
Defined.

(** ** Properties of main *)

(** X10: when the file named by the first argument opens and reads
    without error and is not empty, [main] ends with status 0 exactly when
    the content is valid: then it writes the count in decimal to the
    standard output and nothing to the standard error; otherwise it writes
    nothing to the standard output, the line "Error decoding: " with the
    text of the first violation to the standard error, and ends with
    status 1. *)
Theorem X10_main_prints_count_iff_valid (fuel : nat)
  (Open : list byte -> opened) (prog filename : list byte)
  (more : list (list byte)) (r : reader) (p : list byte) :
  Open filename = Opened r ->
  ReadAt0 r (repeat x00 (Len r)) = (p, None) ->
  p <> [] -> Z.of_nat (length p) <= maxInt -> (length p <= fuel)%nat ->
  exists res,
    main fuel Open (prog :: filename :: more) = Ok res
    /\ (status res = 0 <-> valid p = true)
    /\ (valid p = true ->
        res = mkExit (decimal (cluster_product p)) [] 0)
    /\ (valid p = false ->
        exists err,
          first_error (checks p) = Some err
          /\ res = mkExit [] (B "Error decoding: " ++ error_text err ++ nl) 1).
Proof.
  intros HO HR Hne Hlen Hfuel.
  destruct (run_refines fuel (init p) (cache_ok_init p) Hne Hlen Hfuel)
    as (v & e & st' & Hrun & Hpure & _ & _).
  cbn [input init] in Hpure.
  destruct (count_pure_error _ _ _ Hpure) as [He _].
  unfold run in Hrun.
  destruct (getPossibleCombinations fuel (init p)) as [[[x e'] st'']| |] eqn:EG;
    cbn [bind] in Hrun; try discriminate.
  destruct (deref x st'') as [v'| |] eqn:ED; cbn [bind] in Hrun;
    try discriminate.
  injection Hrun as -> -> ->.
  assert (Hmain : main fuel Open (prog :: filename :: more)
                  = match e with
                    | Some err =>
                        Ok (mkExit [] (B "Error decoding: " ++ error_text err
                                       ++ nl) 1)
                    | None => Ok (mkExit (decimal v) [] 0)
                    end).
  { unfold main. cbn [length Nat.ltb Nat.leb].
    assert (Hidx : index (prog :: filename :: more) 1 = Ok filename)
      by (apply (index_nth _ 1 filename); reflexivity).
    rewrite Hidx. cbn [bind]. rewrite HO. cbv zeta. rewrite HR, EG.
    cbn [bind]. destruct e; [reflexivity|]. now rewrite ED. }
  destruct (valid p) eqn:Hv.
  - rewrite (count_pure_valid _ Hv) in Hpure. injection Hpure as <- <-.
    eexists. split; [exact Hmain|]. cbn [status].
    split; [tauto|]. split; [reflexivity|discriminate].
  - destruct e as [err|].
    + eexists. split; [exact Hmain|]. cbn [status].
      split; [split; discriminate|]. split; [discriminate|].
      intros _. exists err. now split.
    + exfalso. assert (valid p = true) by (apply checks_valid; auto).
      congruence.
Qed.

Lemma X10_main_prints_count_iff_valid_witness :
  exists res,
    main 3 (fun _ => Opened (mkReader 3 (fun _ => (B "226", None))))
         [B "decode-ways"; B "test2.txt"] = Ok res
    /\ (status res = 0 <-> valid (B "226") = true)
    /\ (valid (B "226") = true ->
        res = mkExit (decimal (cluster_product (B "226"))) [] 0)
    /\ (valid (B "226") = false ->
        exists err,
          first_error (checks (B "226")) = Some err
          /\ res = mkExit [] (B "Error decoding: " ++ error_text err ++ nl) 1).
Proof.
  apply (X10_main_prints_count_iff_valid 3
           (fun _ => Opened (mkReader 3 (fun _ => (B "226", None))))
           (B "decode-ways") (B "test2.txt") []
           (mkReader 3 (fun _ => (B "226", None))) (B "226")).
  - reflexivity.
  - reflexivity.
  - discriminate.
  - vm_compute. discriminate.
  - vm_compute. lia.
Defined.

(** X11: [main] has no guard for a file of no bytes. When the file opens
    and reads without error as zero bytes, [getPossibleCombinations] is
    called on the empty slice, the read of [p[0]] is out of range, and
    [main] panics with it: it ends through none of its own exits, neither
    the status 1 with one of its messages nor the status 0 with a count. *)
Theorem X11_main_panics_on_empty_file (fuel : nat)
  (Open : list byte -> opened) (prog filename : list byte)
  (more : list (list byte)) (r : reader) :
  Open filename = Opened r ->
  ReadAt0 r (repeat x00 (Len r)) = ([], None) ->
  getPossibleCombinations fuel (init []) = Panic
  /\ main fuel Open (prog :: filename :: more) = Panic
  /\ forall res, main fuel Open (prog :: filename :: more) <> Ok res.
Proof.
  intros HO HR.
  assert (Hmain : main fuel Open (prog :: filename :: more) = Panic).
  { unfold main. cbn [length Nat.ltb Nat.leb].
    assert (Hidx : index (prog :: filename :: more) 1 = Ok filename)
      by (apply (index_nth _ 1 filename); reflexivity).
    rewrite Hidx. cbn [bind]. rewrite HO. cbv zeta. rewrite HR.
    reflexivity. }
  split; [reflexivity|]. split; [exact Hmain|].
  intros res. rewrite Hmain. discriminate.
Qed.

Lemma X11_main_panics_on_empty_file_witness :
  getPossibleCombinations 1 (init []) = Panic
  /\ main 1 (fun _ => Opened (mkReader 0 (fun b => (b, None))))
          [B "decode-ways"; B "empty.txt"] = Panic
  /\ forall res,
       main 1 (fun _ => Opened (mkReader 0 (fun b => (b, None))))
            [B "decode-ways"; B "empty.txt"] <> Ok res.
Proof.
  apply (X11_main_panics_on_empty_file 1
           (fun _ => Opened (mkReader 0 (fun b => (b, None))))
           (B "decode-ways") (B "empty.txt") []
           (mkReader 0 (fun b => (b, None)))).
  - reflexivity.
  - reflexivity.
Defined.

(** ** Validation against the decodings *)

Lemma is_digit_u8 (b : byte) : 48 <= u8 b <= 57 -> is_digit b = true.
Proof. intros H. now apply is_digit_range. Qed.

Lemma zeros_ok_cons (a b : byte) (rest : list byte) :
  (u8 b = 48 -> u8 a = 49 \/ u8 a = 50) -> zeros_ok b rest = true ->
  zeros_ok a (b :: rest) = true.
Proof.
  intros H Hz. cbn [zeros_ok]. rewrite Hz, andb_true_r. u8_consts.
  destruct (Z.eqb_spec (u8 b) 48) as [E|E]; cbn [negb orb]; [|reflexivity].
  destruct (H E) as [->| ->]; reflexivity.
Qed.

(** The digits of a sequence of letters pass the rules of validation from
    their first byte on. *)
Lemma encode_rules (l : list nat) :
  Forall (fun n => (1 <= n <= 26)%nat) l ->
  match encode l with
  | [] => l = []
  | a :: rest =>
      49 <= u8 a <= 57 /\ forallb is_digit rest = true
      /\ zeros_ok a rest = true
  end.
Proof.
  induction 1 as [|n l Hn Hall IH]; [reflexivity|].
  cbn [encode flat_map]. fold (encode l).
  assert (Htail : forallb is_digit (encode l) = true
                  /\ (forall a, zeros_ok a (encode l) = true)).
  { destruct (encode l) as [|a' rest'].
    - now split.
    - destruct IH as (Ha' & Hd' & Hz'). split.
      + cbn [forallb]. now rewrite (is_digit_u8 a' ltac:(lia)), Hd'.
      + intros a. apply zeros_ok_cons; [lia|exact Hz']. }
  unfold code_digits. destruct (n <? 10)%nat eqn:E.
  - apply Nat.ltb_lt in E. cbn [app].
    pose proof (u8_digit n ltac:(lia)) as Hu.
    destruct Htail as [Hd Hz].
    split; [lia|]. split; [exact Hd|apply Hz].
  - apply Nat.ltb_ge in E. cbn [app].
    assert (Hq : (1 <= n / 10 <= 2)%nat).
    { split; [apply Nat.div_le_lower_bound; lia|].
      assert (n / 10 < 3)%nat by (apply Nat.Div0.div_lt_upper_bound; lia).
      lia. }
    pose proof (Nat.mod_upper_bound n 10 ltac:(lia)) as Hr.
    pose proof (u8_digit (n / 10) ltac:(lia)) as Hu1.
    pose proof (u8_digit (n mod 10) ltac:(lia)) as Hu2.
    destruct Htail as [Hd Hz].
    split; [lia|]. split.
    + cbn [forallb]. now rewrite (is_digit_u8 (digit (n mod 10)) ltac:(lia)), Hd.
    + apply zeros_ok_cons; [lia|apply Hz].
Qed.

Lemma decodable_valid (l : list nat) (p : list byte) :
  p <> [] -> is_decoding l p -> valid p = true.
Proof.
  intros Hne [Hall <-]. pose proof (encode_rules l Hall) as H.
  destruct (encode l) as [|a rest]; [congruence|].
  destruct H as (Ha & Hd & Hz). cbn [valid]. u8_consts.
  rewrite Hd, Hz, !andb_true_r. apply andb_true_intro.
  split; apply Z.leb_le; lia.
Qed.

Lemma valid_decodable (p : list byte) :
  valid p = true -> 1 <= count_decodings p.
Proof.
  intros Hv. destruct p as [|a rest]; [discriminate|].
  cbn [valid] in Hv. apply andb_prop in Hv as [Hv Hz].
  apply andb_prop in Hv as [Hv Hd]. apply andb_prop in Hv as [H1 H9].
  u8_consts. apply Z.leb_le in H1. apply Z.leb_le in H9.
  rewrite (count_decodings_free (length rest) rest a) by (auto; lia).
  apply open_product_pos.
Qed.

Lemma count_decodings_zero (p : list byte) :
  p <> [] -> (count_decodings p = 0 <-> valid p = false).
Proof.
  intros Hne. split.
  - intros H0. destruct (valid p) eqn:Hv; [|reflexivity].
    pose proof (valid_decodable p Hv). lia.
  - intros Hv. unfold count_decodings.
    destruct (decodings p) as [|l L] eqn:E; [reflexivity|].
    assert (Hin : In l (decodings p)) by (rewrite E; now left).
    apply decodings_spec in Hin.
    rewrite (decodable_valid l p Hne Hin) in Hv. discriminate.
Qed.

(** X12: validation is exact. On a non-empty input the call returns an
    error if and only if the input has no decoding at all. *)
Theorem X12_error_iff_no_decoding (fuel : nat) (st : state) :
  cache_ok st -> input st <> [] ->
  Z.of_nat (length (input st)) <= maxInt ->
  (length (input st) <= fuel)%nat ->
  exists v e st',
    run fuel st = Ok (v, e, st')
    /\ (e <> None <-> count_decodings (input st) = 0)
    /\ (e <> None <-> forall l, ~ is_decoding l (input st)).
Proof.
  intros Hok Hne Hlen Hfuel.
  destruct (run_refines fuel st Hok Hne Hlen Hfuel)
    as (v & e & st' & Hrun & Hpure & _ & _).
  exists v, e, st'. split; [exact Hrun|].
  destruct (count_pure_error _ _ _ Hpure) as [He _].
  assert (Hev : e <> None <-> valid (input st) = false).
  { rewrite He. split.
    - intros H. destruct (valid (input st)) eqn:Hv; [|reflexivity].
      apply checks_valid in Hv. tauto.
    - intros Hv Hc. assert (valid (input st) = true)
        by (apply checks_valid; auto). congruence. }
  split; [now rewrite Hev, (count_decodings_zero _ Hne)|].
  rewrite Hev. split.
  - intros Hv l Hl. rewrite (decodable_valid l _ Hne Hl) in Hv. discriminate.
  - intros Hno. destruct (valid (input st)) eqn:Hv; [|reflexivity].
    pose proof (valid_decodable _ Hv) as Hpos. unfold count_decodings in Hpos.
    destruct (decodings (input st)) as [|l L] eqn:E; [cbn in Hpos; lia|].
    exfalso. apply (Hno l). apply decodings_spec. rewrite E. now left.
Qed.

Lemma X12_error_iff_no_decoding_witness :
  exists v e st',
    run 2 (init (B "30")) = Ok (v, e, st')
    /\ (e <> None <-> count_decodings (B "30") = 0)
    /\ (e <> None <-> forall l, ~ is_decoding l (B "30")).
Proof.
  apply (X12_error_iff_no_decoding 2 (init (B "30"))).
  - apply cache_ok_init.
  - discriminate.
  - vm_compute. discriminate.
  - vm_compute. lia.
Defined.

(** ** The count 1 *)

Lemma runs_open_nonempty (l : list bool) :
  forall cur, (0 < cur)%nat -> runs cur l <> [].
Proof.
  induction l as [|[|] l IH]; intros cur Hc; cbn [runs].
  - replace (0 <? cur)%nat with true by (symmetry; apply Nat.ltb_lt; lia).
    discriminate.
  - apply IH. lia.
  - replace (0 <? cur)%nat with true by (symmetry; apply Nat.ltb_lt; lia).
    discriminate.
Qed.

Lemma runs_nil_iff (l : list bool) :
  runs 0 l = [] <-> l = repeat false (length l).
Proof.
  split; [|intros ->; apply runs_false].
  induction l as [|[|] l IH]; cbn [runs length repeat app]; intros H.
  - reflexivity.
  - exfalso. now apply (runs_open_nonempty l 1 ltac:(lia)).
  - f_equal. now apply IH.
Qed.

Lemma pair_flags_false_inv (rest : list byte) :
  forall a,
    pair_flags a rest = repeat false (length rest) ->
    forall k x y, nth_error (a :: rest) k = Some x ->
                  nth_error (a :: rest) (S k) = Some y ->
                  ambiguous x y = false.
Proof.
  induction rest as [|b rest IH]; intros a H k x y Hx Hy.
  - destruct k; discriminate.
  - cbn [pair_flags length repeat] in H. injection H as Hab H.
    destruct k as [|k].
    + cbn in Hx, Hy. congruence.
    + now apply (IH b H k).
Qed.

Lemma Fib_ge_2 (c : nat) : (1 <= c)%nat -> 2 <= Fib (c + 2).
Proof.
  intros Hc. destruct c as [|c]; [lia|].
  replace (S c + 2)%nat with (S (S (S c))) by lia. rewrite Fib_SS.
  pose proof (Fib_pos (S c)). pose proof (Fib_pos c). lia.
Qed.

Lemma product_fibs_pos (l : list nat) : 1 <= product (fibs l).
Proof.
  induction l as [|c l IH]; [cbn; lia|].
  change (1 <= Fib (c + 2) * product (fibs l)).
  pose proof (Fib_pos2 c). nia.
Qed.

Lemma cluster_product_one (p : list byte) :
  cluster_product p = 1 <-> clusters p = [].
Proof.
  split; [|unfold cluster_product; intros ->; reflexivity].
  unfold cluster_product. destruct p as [|a rest]; [reflexivity|].
  cbn [clusters]. pose proof (runs_pos (pair_flags a rest) 0) as Hpos.
  destruct (runs 0 (pair_flags a rest)) as [|c l]; [reflexivity|].
  apply Forall_inv in Hpos.
  change (Fib (c + 2) * product (fibs l) = 1 -> c :: l = []).
  pose proof (Fib_ge_2 c Hpos). pose proof (product_fibs_pos l). nia.
Qed.

(** X13: on a valid input the call returns 1 if and only if no two
    adjacent digits form an ambiguous pair. *)
Theorem X13_one_iff_no_ambiguous_pair (fuel : nat) (st : state) :
  cache_ok st -> valid (input st) = true ->
  Z.of_nat (length (input st)) <= maxInt ->
  (length (input st) <= fuel)%nat ->
  exists v st',
    run fuel st = Ok (v, None, st')
    /\ (v = 1 <->
        forall k x y, nth_error (input st) k = Some x ->
                      nth_error (input st) (S k) = Some y ->
                      ambiguous x y = false).
Proof.
  intros Hok Hv Hlen Hfuel.
  destruct (run_valid fuel st Hok Hv Hlen Hfuel) as (st' & Hrun & _).
  exists (cluster_product (input st)), st'. split; [exact Hrun|].
  rewrite cluster_product_one.
  destruct (input st) as [|a rest]; [discriminate|]. cbn [clusters].
  rewrite runs_nil_iff, length_pair_flags. split.
  - apply pair_flags_false_inv.
  - apply pair_flags_unambiguous.
Qed.

Lemma X13_one_iff_no_ambiguous_pair_witness :
  exists v st',
    run 4 (init (B "2739")) = Ok (v, None, st')
    /\ (v = 1 <->
        forall k x y, nth_error (B "2739") k = Some x ->
                      nth_error (B "2739") (S k) = Some y ->
                      ambiguous x y = false).
Proof.
  apply (X13_one_iff_no_ambiguous_pair 4 (init (B "2739"))).
  - apply cache_ok_init.
  - reflexivity.
  - vm_compute. discriminate.
  - vm_compute. lia.
Defined.

(** ** The cache after a call of getPossibleCombinations *)

(** X14: a call of [getPossibleCombinations] that returns, on any input
    and with any fuel, keeps the table a table of Fibonacci numbers:
    [maxFib] is its length, and entry i holds F(i) for every i. *)
Theorem X14_call_keeps_fibonacci_table (fuel : nat) (st st' : state)
  (r : ptr) (e : option error) :
  cache_ok st -> getPossibleCombinations fuel st = Ok (r, e, st') ->
  maxFib st' = Z.of_nat (length (f st'))
  /\ 2 <= maxFib st' < 2 ^ 64
  /\ forall i, (i < length (f st'))%nat -> entry st' i = Some (Fib i).
Proof. apply getPossibleCombinations_keeps. Qed.

Lemma X14_call_keeps_fibonacci_table_witness :
  let st' := mkState (B "226") [0; 1; 3; 1; 2; 3] [0; 1; 3; 4; 5]%nat 5 in
  maxFib st' = Z.of_nat (length (f st'))
  /\ 2 <= maxFib st' < 2 ^ 64
  /\ forall i, (i < length (f st'))%nat -> entry st' i = Some (Fib i).
Proof.
  intros st'.
  apply (X14_call_keeps_fibonacci_table 3 (init (B "226")) st' 2%nat None).
  - apply cache_ok_init.
  - reflexivity.
Defined.
